(** * Makalu: the pattern-matching engine of [src/main.go]

    A shallow embedding of the comparator table ([equalityOperators]),
    the operators ([operate], [executeIsOperator], [executeNeOperator],
    [executeRegexOperator]), the structural comparator ([compareObjects])
    and the request-target templating ([refer], [processEntry], [main]).

    Modelling choices:
    - Go's [interface{}] values produced by [encoding/json] (with
      [UseNumber]) and [yaml.v3] are the inductive [GoValue]; a Go map is an
      association list whose order is the (arbitrary) iteration order of
      [range], so every theorem quantifying over lists covers every order.
    - The global [errors] slice is threaded by the state monad [M]; a Go
      panic (a failed type assertion, or [reflect.TypeOf(nil).String()]) is
      the [None] outcome of [M].
    - [regexp.MatchString] and [jsonpath.Read] are library calls; they are
      parameters of the development. *)

From Stdlib Require Import String Ascii List Bool ZArith Lia.
Import ListNotations.
Open Scope list_scope.
Open Scope string_scope.

(** ** Go values *)

Set Warnings "-register-all".

Inductive GoValue : Type :=
| GNil                                   (* nil (JSON null, YAML ~) *)
| GBool (b : bool)                       (* bool *)
| GNumber (text : string)                (* json.Number *)
| GInt (z : Z)                           (* int (YAML integers) *)
| GFloat (text : string)                 (* float64 (YAML floats) *)
| GString (s : string)                   (* string *)
| GSeq (xs : list GoValue)               (* []interface {} *)
| GMap (kvs : list (string * GoValue)).  (* map[string]interface {} *)

(** [reflect.TypeOf(v).String()]; [reflect.TypeOf(nil)] is a nil
    [reflect.Type], and calling [String] on it panics ([None]). *)
Definition typeName (v : GoValue) : option string :=
  match v with
  | GNil => None
  | GBool _ => Some "bool"
  | GNumber _ => Some "json.Number"
  | GInt _ => Some "int"
  | GFloat _ => Some "float64"
  | GString _ => Some "string"
  | GSeq _ => Some "[]interface {}"
  | GMap _ => Some "map[string]interface {}"
  end.

(** Map lookup [m[k]] (with the comma-ok form: [None] when absent). *)
Fixpoint lookup {A} (k : string) (m : list (string * A)) : option A :=
  match m with
  | [] => None
  | (k', v) :: m' => if String.eqb k k' then Some v else lookup k m'
  end.

Definition keys {A} (m : list (string * A)) : list string := map fst m.

(** ** Strings *)

(** [strings.HasPrefix]. *)
Definition hasPrefix (s pre : string) : bool := String.prefix pre s.

(** [strings.HasSuffix]. *)
Definition hasSuffix (s suf : string) : bool :=
  (String.length suf <=? String.length s)%nat &&
  String.eqb (substring (String.length s - String.length suf)
                        (String.length suf) s) suf.

(** [strings.TrimSuffix]. *)
Definition trimSuffix (s suf : string) : string :=
  if hasSuffix s suf
  then substring 0 (String.length s - String.length suf) s
  else s.

(** [strings.TrimPrefix]. *)
Definition trimPrefix (s pre : string) : string :=
  if hasPrefix s pre
  then substring (String.length pre) (String.length s - String.length pre) s
  else s.

(** ** Diagnostics *)

Record Entry := mkEntry { longName : string; shortName : string }.

Definition zeroEntry : Entry := mkEntry "" "".

Record Error := mkError {
  message : string;
  actualKey : string;
  expectedKey : string;
  category : string;
  entry : Entry
}.

(** An [Error{...}] literal without its [entry] field. *)
Definition err (msg ak ek cat : string) : Error := mkError msg ak ek cat zeroEntry.

(** ** The state of a run: the global [errors] slice, and panics *)

Definition M (A : Type) : Type := list Error -> option (A * list Error).

Definition ret {A} (a : A) : M A := fun s => Some (a, s).

Definition bind {A B} (m : M A) (f : A -> M B) : M B :=
  fun s => match m s with
           | Some (a, s') => f a s'
           | None => None
           end.

(** [errors = append(errors, e)]. *)
Definition emit (e : Error) : M unit := fun s => Some (tt, app s [e]).

(** A Go run-time panic. *)
Definition panic {A} : M A := fun _ => None.

(** A [fmt.Printf] to standard output: no effect on [errors]. *)
Definition printf : M unit := ret tt.

Notation "x <- m ;; k" := (bind m (fun x => k))
  (at level 61, m at next level, right associativity).
Notation "m ;;; k" := (bind m (fun _ => k))
  (at level 61, right associativity).

(** [reflect.TypeOf(v).String()] inside [M]. *)
Definition typeOf (v : GoValue) : M string :=
  match typeName v with
  | Some t => ret t
  | None => panic
  end.

(** ** [json.Number.Int64], i.e. [strconv.ParseInt(s, 10, 64)] *)

Definition digitValue (c : ascii) : option Z :=
  let n := nat_of_ascii c in
  if ((48 <=? n) && (n <=? 57))%nat then Some (Z.of_nat (n - 48)) else None.

Fixpoint parseDigits (acc : Z) (s : string) : option Z :=
  match s with
  | EmptyString => Some acc
  | String c s' =>
      match digitValue c with
      | Some d => parseDigits (acc * 10 + d) s'
      | None => None
      end
  end.

Definition parseUnsigned (s : string) : option Z :=
  match s with
  | EmptyString => None
  | _ => parseDigits 0 s
  end.

Definition int64Min : Z := (- 2 ^ 63)%Z.
Definition int64Max : Z := (2 ^ 63 - 1)%Z.

Definition numberInt64 (s : string) : option Z :=
  let r :=
    match s with
    | String "-"%char s' => option_map Z.opp (parseUnsigned s')
    | String "+"%char s' => parseUnsigned s'
    | _ => parseUnsigned s
    end in
  match r with
  | Some z => if ((int64Min <=? z) && (z <=? int64Max))%Z then Some z else None
  | None => None
  end.

(** ** The operators and the comparator table *)

Section Engine.

(** [regexp.MatchString(pattern, s)]: [None] when [pattern] does not
    compile, otherwise whether [s] contains a match. *)
Variable regexMatch : string -> string -> option bool.

(** The type of [operate], which the operand-mapping comparators call. *)
Definition Operate : Type :=
  GoValue -> string -> GoValue -> string -> string -> M bool.

(** The entries of [equalityOperators], keyed by the type names of the
    actual and the expected value. *)
Inductive Comparator : Type :=
| StringString | StringMap | NumberString | NumberInt | NumberMap.

(** [equalityOperators[actualType][expectedType]] in its comma-ok form (a
    missing outer key yields a nil inner map, whose lookups miss). *)
Definition equalityOperators (actualType expectedType : string)
  : option Comparator :=
  if String.eqb actualType "string" then
    if String.eqb expectedType "string" then Some StringString
    else if String.eqb expectedType "map[string]interface {}" then Some StringMap
    else None
  else if String.eqb actualType "json.Number" then
    if String.eqb expectedType "string" then Some NumberString
    else if String.eqb expectedType "int" then Some NumberInt
    else if String.eqb expectedType "map[string]interface {}" then Some NumberMap
    else None
  else None.

(** [equalityOperators["string"]["string"]]. *)
Definition compareStringString (actual0 expected0 : GoValue)
    (actualKey expectedKey : string) (inverse : bool) : M bool :=
  match actual0, expected0 with
  | GString actual, GString expected =>
      if hasPrefix expected "$" then
        if inverse && String.eqb expected "$string" then
          emit (err "Unexpected value type" actualKey
                    (expectedKey ++ ":" ++ expected) "response_error") ;;;
          ret false
        else if negb inverse && negb (String.eqb expected "$string") then
          emit (err "Unexpected value type" actualKey
                    (expectedKey ++ ":" ++ expected) "response_error") ;;;
          ret false
        else ret true
      else if inverse && String.eqb actual expected then
        emit (err "Values are equal" actualKey expectedKey "response_error") ;;;
        ret false
      else if negb inverse && negb (String.eqb actual expected) then
        emit (err "Values are not equal" actualKey expectedKey "response_error") ;;;
        ret false
      else ret true
  | _, _ => panic
  end.

(** The loop of [equalityOperators["string"]["map[string]interface {}"]]:
    every key of the operand mapping must be an operator;
    [result = result && operate(..)] skips [operate] once [result] is false. *)
Fixpoint stringMapLoop (operate : Operate) (actualValue : GoValue)
    (parentActualKey parentExpectedKey : string) (result : bool)
    (l : list (string * GoValue)) : M bool :=
  match l with
  | [] => ret result
  | (expectedKey, operand2) :: l' =>
      if hasPrefix expectedKey "$" then
        r <- (if result
              then operate actualValue expectedKey operand2 parentActualKey
                     (parentExpectedKey ++ "." ++ expectedKey)
              else ret false) ;;
        stringMapLoop operate actualValue parentActualKey parentExpectedKey r l'
      else
        emit (err "Cannot mix operators and fields" parentActualKey
                  parentExpectedKey "spec_error") ;;;
        stringMapLoop operate actualValue parentActualKey parentExpectedKey false l'
  end.

(** [equalityOperators["string"]["map[string]interface {}"]]. *)
Definition compareStringMap (operate : Operate) (actual0 expected0 : GoValue)
    (parentActualKey parentExpectedKey : string) (inverse : bool) : M bool :=
  match actual0, expected0 with
  | GString _, GMap expectedValue =>
      stringMapLoop operate actual0 parentActualKey parentExpectedKey true
        expectedValue
  | _, _ => panic
  end.

(** [equalityOperators["json.Number"]["string"]]: [inverse] is not read. *)
Definition compareNumberString (actual0 expected0 : GoValue)
    (actualKey expectedKey : string) (inverse : bool) : M bool :=
  match expected0 with
  | GString expected =>
      if hasPrefix expected "$" then
        if negb (String.eqb expected "$number") then
          emit (err "Unexpected value type" actualKey
                    (expectedKey ++ ":" ++ expected) "response_error") ;;;
          ret false
        else ret true
      else
        emit (err "Values are not equal" actualKey expectedKey "response_error") ;;;
        ret false
  | _ => panic
  end.

(** [equalityOperators["json.Number"]["int"]]: [expected0.(int)] is only
    evaluated when [Int64] succeeds. *)
Definition compareNumberInt (actual0 expected0 : GoValue)
    (actualKey expectedKey : string) (inverse : bool) : M bool :=
  let notEqual :=
    emit (err "Values are not equal" actualKey expectedKey "response_error") ;;;
    ret false in
  match actual0 with
  | GNumber t =>
      match numberInt64 t with
      | Some actual =>
          match expected0 with
          | GInt e => if Z.eqb actual e then ret true else notEqual
          | _ => panic
          end
      | None => notEqual
      end
  | _ => panic
  end.

(** The loop of [equalityOperators["json.Number"]["map[string]interface {}"]]:
    the loop variable [expectedKey] shadows the comparator's parameter, and
    [operate] is called with empty paths. *)
Fixpoint numberMapLoop (operate : Operate) (actualValue : GoValue)
    (actualKey : string) (result : bool)
    (l : list (string * GoValue)) : M bool :=
  match l with
  | [] => ret result
  | (expectedKey, operand2) :: l' =>
      if hasPrefix expectedKey "$" then
        r <- (if result
              then operate actualValue expectedKey operand2 "" ""
              else ret false) ;;
        numberMapLoop operate actualValue actualKey r l'
      else
        emit (err "Cannot mix operators and fields" actualKey
                  expectedKey "spec_error") ;;;
        numberMapLoop operate actualValue actualKey false l'
  end.

(** [equalityOperators["json.Number"]["map[string]interface {}"]]. *)
Definition compareNumberMap (operate : Operate) (actual0 expected0 : GoValue)
    (actualKey expectedKey : string) (inverse : bool) : M bool :=
  match actual0, expected0 with
  | GNumber _, GMap expectedValue =>
      numberMapLoop operate actual0 actualKey true expectedValue
  | _, _ => panic
  end.

(** Calling the comparator found in the table. *)
Definition applyComparator (operate : Operate) (c : Comparator)
  : GoValue -> GoValue -> string -> string -> bool -> M bool :=
  match c with
  | StringString => compareStringString
  | StringMap => compareStringMap operate
  | NumberString => compareNumberString
  | NumberInt => compareNumberInt
  | NumberMap => compareNumberMap operate
  end.

(** [executeIsOperator]. *)
Definition executeIsOperator (operand1 : GoValue) (operand2 : string)
    (actualKey expectedKey : string) (inverse : bool) : M bool :=
  let expectedTypeName := trimPrefix operand2 "$" in
  actualTypeName <- typeOf operand1 ;;
  if inverse then
    if negb (String.eqb actualTypeName expectedTypeName) then ret true
    else
      emit (err "Value type matched" actualKey expectedKey "response_error") ;;;
      ret false
  else
    if String.eqb actualTypeName expectedTypeName then ret true
    else
      emit (err "Value type mismatched" actualKey expectedKey "response_error") ;;;
      ret false.

(** [executeNeOperator]. *)
Definition executeNeOperator (operate : Operate) (actualValue expectedValue : GoValue)
    (actualKey expectedKey : string) : M bool :=
  actualValueType <- typeOf actualValue ;;
  expectedValueType <- typeOf expectedValue ;;
  match equalityOperators actualValueType expectedValueType with
  | Some comparator =>
      applyComparator operate comparator actualValue expectedValue
        actualKey expectedKey true
  | None => printf ;;; ret false
  end.

(** [executeRegexOperator]. *)
Definition executeRegexOperator (actualValue0 : GoValue) (expectedValue : string)
    (actualKey expectedKey : string) : M bool :=
  actualValueType <- typeOf actualValue0 ;;
  if negb (String.eqb actualValueType "string") then
    emit (err "Unexpected value type" actualKey expectedKey "response_error") ;;;
    ret false
  else
    match actualValue0 with
    | GString actualValue =>
        match regexMatch expectedValue actualValue with
        | None =>
            emit (err "Invalid regex pattern" actualKey expectedKey "spec_error") ;;;
            ret false
        | Some matched =>
            (if negb matched then
               emit (err "Regex mismatch" actualKey expectedKey "response_error")
             else ret tt) ;;;
            ret matched
        end
    | _ => panic
    end.

(** [operate]. Go's [switch] does not fall through: [case "$is":] has an
    empty body, so [$is] leaves the switch and returns [false]. *)
Fixpoint operate (operand1 : GoValue) (operator : string) (operand2 : GoValue)
    (parentActualKey parentExpectedKey : string) {struct operand2} : M bool :=
  if String.eqb operator "$is" then ret false
  else if String.eqb operator "$is_not" then
    typeName <- typeOf operand2 ;;
    match operand2 with
    | GString s =>
        if String.eqb typeName "string" && hasPrefix s "$" then
          executeIsOperator operand1 s parentActualKey
            (parentActualKey ++ "." ++ operator) (String.eqb operator "$is_not")
        else
          emit (err (operator ++ " operator expects type name") parentActualKey
                    parentExpectedKey "spec_error") ;;;
          ret false
    | _ =>
        emit (err (operator ++ " operator expects type name") parentActualKey
                  parentExpectedKey "spec_error") ;;;
        ret false
    end
  else if String.eqb operator "$ne" then
    executeNeOperator operate operand1 operand2 parentActualKey parentExpectedKey
  else if String.eqb operator "$regex" then
    t <- typeOf operand2 ;;
    match operand2 with
    | GString s => executeRegexOperator operand1 s parentActualKey parentExpectedKey
    | _ =>
        emit (err "$regex operator expects regex pattern" parentActualKey
                  parentExpectedKey "spec_error") ;;;
        ret false
    end
  else ret false.

End Engine.

(** ** The structural comparator *)

(** [for _, x := range l { body(x) }]. *)
Fixpoint forRange {A} (l : list A) (body : A -> M unit) : M unit :=
  match l with
  | [] => ret tt
  | x :: l' => body x ;;; forRange l' body
  end.

Definition isSome {A} (o : option A) : bool :=
  match o with Some _ => true | None => false end.

Section Structural.

Variable regexMatch : string -> string -> option bool.

(** The body of the first loop of [compareObjects] for one actual key. *)
Definition checkUnknownKey (expected : list (string * GoValue))
    (parentActualKey parentExpectedKey : string) (key : string) : M unit :=
  let optionalKey := key ++ "?" in
  let keyExists := isSome (lookup key expected) in
  let optionalKeyExists := isSome (lookup optionalKey expected) in
  if negb keyExists && negb optionalKeyExists then
    emit (err ("Unknown key " ++ key) (parentActualKey ++ "." ++ key)
              (parentExpectedKey ++ ".$unknown") "match_error")
  else ret tt.

(** The comparison of a present key (the last [if] of the second loop).
    Go discards the boolean returned by [operate] or by the comparator; it
    is returned here ([None] when the kind pair is not in the table). *)
Definition compareValues (actualValue expectedValue : GoValue)
    (expectedKey actualKey parentActualKey parentExpectedKey : string)
    : M (option bool) :=
  if hasPrefix expectedKey "$" then
    b <- operate regexMatch actualValue expectedKey expectedValue
           (parentActualKey ++ "." ++ actualKey)
           (parentExpectedKey ++ "." ++ expectedKey) ;;
    ret (Some b)
  else
    actualValueType <- typeOf actualValue ;;
    expectedValueType <- typeOf expectedValue ;;
    match equalityOperators actualValueType expectedValueType with
    | Some comparator =>
        b <- applyComparator (operate regexMatch) comparator actualValue
               expectedValue (parentActualKey ++ "." ++ actualKey)
               (parentExpectedKey ++ "." ++ expectedKey) false ;;
        ret (Some b)
    | None => printf ;;; ret None
    end.

(** The key looked up in the actual mapping for an expected key: the key
    without its optionality suffix [?]. *)
Definition actualKeyOf (expectedKey : string) : string :=
  if hasSuffix expectedKey "?" then trimSuffix expectedKey "?" else expectedKey.

(** The body of the second loop of [compareObjects] for one expected entry
    ([expected[expectedKey]] is the entry's own value: map keys are unique). *)
Definition checkExpectedKey (actual : list (string * GoValue))
    (parentActualKey parentExpectedKey : string)
    (kv : string * GoValue) : M unit :=
  let (expectedKey, expectedValue) := kv in
  let optional := hasSuffix expectedKey "?" in
  let actualKey := actualKeyOf expectedKey in
  match lookup actualKey actual with
  | None =>
      if negb optional then
        emit (err ("Cannot find required key '" ++ actualKey ++ "'")
                  (parentActualKey ++ ".<" ++ actualKey ++ ">")
                  (parentExpectedKey ++ "." ++ expectedKey) "match_error")
      else ret tt
  | Some actualValue =>
      compareValues actualValue expectedValue expectedKey actualKey
        parentActualKey parentExpectedKey ;;;
      ret tt
  end.

(** [compareObjects]. *)
Definition compareObjects (actual expected : list (string * GoValue))
    (parentActualKey parentExpectedKey : string) : M unit :=
  forRange (keys actual) (checkUnknownKey expected parentActualKey parentExpectedKey) ;;;
  forRange expected (checkExpectedKey actual parentActualKey parentExpectedKey).

End Structural.

(** A [regexp.MatchString] for patterns without metacharacters: a pattern
    made of literal characters matches exactly the strings containing it. *)
Definition literalRegex (pattern s : string) : option bool :=
  Some (isSome (index 0 pattern s)).



(** ** Request-target templating and the entry loop *)

(** [strings.Index(s, sub)]: the byte offset of the first occurrence, or -1. *)
Definition goIndex (s sub : string) : Z :=
  match index 0 sub s with
  | Some n => Z.of_nat n
  | None => (-1)%Z
  end.

(** [s[i:j]]. *)
Definition slice (s : string) (i j : Z) : string :=
  substring (Z.to_nat i) (Z.to_nat j - Z.to_nat i) s.

Definition len (s : string) : Z := Z.of_nat (String.length s).

(** ** [strings.TrimSpace]

    [strings.TrimSpace] trims the leading and trailing runes for which
    [unicode.IsSpace] holds, decoding UTF-8 as [utf8.DecodeRuneInString]
    and [utf8.DecodeLastRuneInString] do (an invalid byte decodes to
    [RuneError] of width 1). Its ASCII fast path returns the same string
    as [TrimFunc(s, unicode.IsSpace)], which is what is modelled here:
    [TrimRightFunc(TrimLeftFunc(s, f), f)]. *)

Definition runeError : Z := 65533.

(** [s[i]], as a byte value. *)
Definition byteAt (s : string) (i : nat) : Z :=
  match String.get i s with
  | Some c => Z.of_nat (nat_of_ascii c)
  | None => 0%Z
  end.

(** [first[s0]] of package [utf8]: the width of the encoding started by
    [s0] and the accepted range of its second byte; [None] for a byte that
    cannot start an encoding of width 2 to 4. *)
Definition firstInfo (s0 : Z) : option (nat * Z * Z) :=
  if ((0xC2 <=? s0) && (s0 <=? 0xDF))%Z then Some (2%nat, 0x80%Z, 0xBF%Z)
  else if (s0 =? 0xE0)%Z then Some (3%nat, 0xA0%Z, 0xBF%Z)
  else if ((0xE1 <=? s0) && (s0 <=? 0xEC))%Z then Some (3%nat, 0x80%Z, 0xBF%Z)
  else if (s0 =? 0xED)%Z then Some (3%nat, 0x80%Z, 0x9F%Z)
  else if ((0xEE <=? s0) && (s0 <=? 0xEF))%Z then Some (3%nat, 0x80%Z, 0xBF%Z)
  else if (s0 =? 0xF0)%Z then Some (4%nat, 0x90%Z, 0xBF%Z)
  else if ((0xF1 <=? s0) && (s0 <=? 0xF3))%Z then Some (4%nat, 0x80%Z, 0xBF%Z)
  else if (s0 =? 0xF4)%Z then Some (4%nat, 0x80%Z, 0x8F%Z)
  else None.

Definition isCont (b : Z) : bool := ((0x80 <=? b) && (b <=? 0xBF))%Z.

(** [utf8.DecodeRuneInString]. *)
Definition decodeRune (s : string) : Z * nat :=
  let n := String.length s in
  if (n =? 0)%nat then (runeError, 0%nat) else
  let s0 := byteAt s 0 in
  if (s0 <? 0x80)%Z then (s0, 1%nat) else
  match firstInfo s0 with
  | None => (runeError, 1%nat)
  | Some (sz, lo, hi) =>
      if (n <? sz)%nat then (runeError, 1%nat) else
      let s1 := byteAt s 1 in
      if ((s1 <? lo) || (hi <? s1))%Z then (runeError, 1%nat) else
      if (sz <=? 2)%nat then
        (Z.lor (Z.shiftl (Z.land s0 0x1F) 6) (Z.land s1 0x3F), 2%nat) else
      let s2 := byteAt s 2 in
      if negb (isCont s2) then (runeError, 1%nat) else
      if (sz <=? 3)%nat then
        (Z.lor (Z.lor (Z.shiftl (Z.land s0 0x0F) 12) (Z.shiftl (Z.land s1 0x3F) 6))
               (Z.land s2 0x3F), 3%nat) else
      let s3 := byteAt s 3 in
      if negb (isCont s3) then (runeError, 1%nat) else
      (Z.lor (Z.lor (Z.lor (Z.shiftl (Z.land s0 0x07) 18) (Z.shiftl (Z.land s1 0x3F) 12))
                    (Z.shiftl (Z.land s2 0x3F) 6)) (Z.land s3 0x3F), 4%nat)
  end.

(** [utf8.RuneStart]. *)
Definition runeStart (b : Z) : bool := negb (Z.land b 0xC0 =? 0x80)%Z.

(** The backward scan of [utf8.DecodeLastRuneInString]:
    [for start--; start >= lim; start-- { if RuneStart(s[start]) { break } }],
    run on [start] and returning its final value. *)
Fixpoint scanStart (s : string) (lim : Z) (start : Z) (fuel : nat) : Z :=
  match fuel with
  | O => start
  | S fuel' =>
      if (start >=? lim)%Z then
        if runeStart (byteAt s (Z.to_nat start)) then start
        else scanStart s lim (start - 1) fuel'
      else start
  end.

(** [utf8.DecodeLastRuneInString]. *)
Definition decodeLastRune (s : string) : Z * nat :=
  let end_ := Z.of_nat (String.length s) in
  if (end_ =? 0)%Z then (runeError, 0%nat) else
  let r := byteAt s (Z.to_nat (end_ - 1)) in
  if (r <? 0x80)%Z then (r, 1%nat) else
  let lim := Z.max (end_ - 4) 0 in
  let start := Z.max (scanStart s lim (end_ - 2) 4) 0 in
  let (r', size) := decodeRune (substring (Z.to_nat start) (Z.to_nat (end_ - start)) s) in
  if negb (start + Z.of_nat size =? end_)%Z then (runeError, 1%nat) else (r', size).

(** [unicode.IsSpace]: the Latin-1 white space, then the [White_Space]
    table above Latin-1. *)
Definition isSpace (r : Z) : bool :=
  if (r <=? 0xFF)%Z then
    ((0x09 <=? r) && (r <=? 0x0D))%Z || (r =? 0x20)%Z || (r =? 0x85)%Z || (r =? 0xA0)%Z
  else
    (r =? 0x1680)%Z || ((0x2000 <=? r) && (r <=? 0x200A))%Z ||
    (r =? 0x2028)%Z || (r =? 0x2029)%Z || (r =? 0x202F)%Z || (r =? 0x205F)%Z ||
    (r =? 0x3000)%Z.

(** [strings.TrimLeftFunc(s, unicode.IsSpace)]: [for i, r := range s], with
    the fuel bounding the number of runes. *)
Fixpoint trimLeftSpace (fuel : nat) (s : string) : string :=
  match fuel with
  | O => s
  | S fuel' =>
      match s with
      | EmptyString => EmptyString
      | String _ _ =>
          let (r, size) := decodeRune s in
          if isSpace r
          then trimLeftSpace fuel' (substring size (String.length s - size) s)
          else s
      end
  end.

(** [lastIndexFunc(s, unicode.IsSpace, false)], from index [i] down. *)
Fixpoint lastIndexNonSpace (fuel : nat) (s : string) (i : nat) : Z :=
  match fuel with
  | O => (-1)%Z
  | S fuel' =>
      if (i =? 0)%nat then (-1)%Z else
      let (r, size) := decodeLastRune (substring 0 i s) in
      let i' := (i - size)%nat in
      if negb (isSpace r) then Z.of_nat i' else lastIndexNonSpace fuel' s i'
  end.

(** [strings.TrimRightFunc(s, unicode.IsSpace)]. *)
Definition trimRightSpace (s : string) : string :=
  let i := lastIndexNonSpace (S (String.length s)) s (String.length s) in
  let i' :=
    if ((i >=? 0) && (0x80 <=? byteAt s (Z.to_nat i)))%Z
    then (i + Z.of_nat (snd (decodeRune (substring (Z.to_nat i)
                                           (String.length s - Z.to_nat i) s))))%Z
    else (i + 1)%Z in
  substring 0 (Z.to_nat i') s.

(** [strings.TrimSpace]. *)
Definition trimSpace (s : string) : string :=
  trimRightSpace (trimLeftSpace (S (String.length s)) s).

(** [strings.Split(s, " ")]. *)
Fixpoint splitSpace (s : string) : list string :=
  match s with
  | EmptyString => [""]
  | String c s' =>
      if Ascii.eqb c " "%char then "" :: splitSpace s'
      else match splitSpace s' with
           | w :: ws => String c w :: ws
           | [] => [String c EmptyString]
           end
  end.

(** How a call of [refer] ends: with its result, by [log.Fatal] (which
    calls [os.Exit(1)]), by a panic, or still looping when the fuel runs
    out. *)
Inductive ReferResult : Type :=
| Referred (s : string)
| ReferFatal
| ReferPanic
| ReferOutOfFuel.

(** How the processing of the entries ends: [Continue] when control
    returns normally, [Exited] on [log.Fatal], [Crashed] on a panic; the
    accumulated [errors] are printed only after a normal end of the loop. *)
Inductive Outcome : Type :=
| Continue (errs : list Error)
| Exited (errs : list Error)
| Crashed (errs : list Error)
| OutOfFuel.

Section Templating.

(** [jsonpath.Read(context, query)]: [None] when the query fails. *)
Variable jsonpathRead : GoValue -> string -> option GoValue.

(** The loop of [refer], one iteration per unit of fuel. Both searches
    start at the beginning of [value], whatever [index] is. *)
Fixpoint referLoop (fuel : nat) (value : string) (context : GoValue)
    (index : Z) (buffer : string) : ReferResult :=
  match fuel with
  | O => ReferOutOfFuel
  | S fuel' =>
      if (index <? len value)%Z then
        let startIndex := goIndex value "{{" in
        if (startIndex >=? index)%Z then
          let buffer := buffer ++ slice value index startIndex in
          let stopIndex := goIndex value "}}" in
          if (stopIndex >=? startIndex + 2)%Z then
            let snippet := trimSpace (slice value (startIndex + 2) stopIndex) in
            match jsonpathRead context ("$." ++ snippet) with
            | None => ReferFatal
            | Some (GString v) =>
                referLoop fuel' value context (stopIndex + 2) (buffer ++ v)
            | Some _ => ReferPanic
            end
          else referLoop fuel' value context index buffer
        else
          referLoop fuel' value context (len value)
            (buffer ++ slice value index (len value))
      else Referred buffer
  end.

(** [refer]. *)
Definition refer (fuel : nat) (value : string) (context : GoValue) : ReferResult :=
  referLoop fuel value context 0 "".

(** The HTTP request of an entry, the decoding of its response and its
    [compareObjects] call, given the method and the URL. *)
Variable request : string -> string -> list Error -> Outcome.

(** [processEntry] after [readConf]: [target] is the entry's [Target]. *)
Definition processEntry (fuel : nat) (e : Entry) (target : string)
    (context : GoValue) (errs : list Error) : Outcome :=
  let cleanTarget := trimSpace target in
  if String.eqb cleanTarget "" then
    Continue (errs ++ [mkError "Target expected" "" "$root.target" "spec_error" e])
  else
    match refer fuel target context with
    | ReferFatal => Exited errs
    | ReferPanic => Crashed errs
    | ReferOutOfFuel => OutOfFuel
    | Referred t =>
        match splitSpace t with
        | method :: url :: _ => request method url errs
        | _ => Crashed errs
        end
    end.

(** [for _, entry := range entries { processEntry(entry, context) }]. *)
Fixpoint processEntries (fuel : nat) (entries : list (Entry * string))
    (context : GoValue) (errs : list Error) : Outcome :=
  match entries with
  | [] => Continue errs
  | (e, target) :: rest =>
      match processEntry fuel e target context errs with
      | Continue errs' => processEntries fuel rest context errs'
      | o => o
      end
  end.

End Templating.

(** ** The HTTP stage of [processEntry] *)

(** The fields of [TestCase] read by [processEntry] ([In] is renamed
    [In_], [In] being the list membership of the Standard Library). *)
Record TestCase := mkTestCase {
  Target : string;
  In_ : list (string * GoValue);
  Out : list (string * GoValue)
}.

Section Http.

Variable regexMatch : string -> string -> option bool.

(** [http.Get(url)] followed by [ioutil.ReadAll(response.Body)]: the
    response body, or [None] when either call returns an error. *)
Variable httpGet : string -> option string.

(** [http.Post(url, "application/json", body)] followed by
    [ioutil.ReadAll(response.Body)]. *)
Variable httpPost : string -> string -> option string.

(** [json.Marshal(testCase.In)] (its error is discarded by the code). *)
Variable jsonMarshal : list (string * GoValue) -> string.

(** [decoder.Decode(&responseObject)] with [UseNumber]: the decoded object,
    or [None] when the body is not a JSON object; the code discards the
    error, and [responseObject] is then still a nil map, whose [range] is
    empty and whose lookups miss. *)
Variable decodeObject : string -> option (list (string * GoValue)).

(** The end of both branches: decode, [printResponse], [compareObjects]. *)
Definition compareResponse (responseBody : string)
    (out : list (string * GoValue)) (errs : list Error) : Outcome :=
  let responseObject :=
    match decodeObject responseBody with Some m => m | None => [] end in
  match compareObjects regexMatch responseObject out "$root" "$root.out" errs with
  | Some (_, errs') => Continue errs'
  | None => Crashed errs
  end.

(** The two [if] statements of [processEntry] on [method]; a failed
    request or read calls [log.Fatalf] / [log.Fatalln]. *)
Definition sendRequest (testCase : TestCase) (method url : string)
    (errs : list Error) : Outcome :=
  let afterGet :=
    if String.eqb method "GET" then
      match httpGet url with
      | None => Exited errs
      | Some responseBody => compareResponse responseBody (Out testCase) errs
      end
    else Continue errs in
  match afterGet with
  | Continue errs1 =>
      if String.eqb method "POST" then
        match httpPost url (jsonMarshal (In_ testCase)) with
        | None => Exited errs1
        | Some responseBody => compareResponse responseBody (Out testCase) errs1
        end
      else Continue errs1
  | o => o
  end.

End Http.

(** ** [listFiles] *)

(** A directory entry as [os.ReadDir] returns it, with the entries of a
    subdirectory; [UnreadableDir] is a subdirectory whose [os.ReadDir]
    fails. *)
Inductive Node : Type :=
| FileNode (name : string)
| DirNode (name : string) (children : list Node)
| UnreadableDir (name : string).

(** [string(os.PathSeparator)] on Linux. *)
Definition pathSeparator : string := "/".

(** One iteration of the loop of [listFiles(longRoot, shortRoot, list)]
    for the directory entry [n], appending to [*list]; for a subdirectory,
    the recursive call [listFiles(longName, shortName, list)] runs its own
    loop over the subdirectory's entries. [None] is [log.Fatal]. *)
Fixpoint listNode (longRoot shortRoot : string) (n : Node)
    (list : Datatypes.list Entry) {struct n} : option (Datatypes.list Entry) :=
  match n with
  | FileNode name =>
      let longName := longRoot ++ pathSeparator ++ name in
      let shortName := shortRoot ++ pathSeparator ++ name in
      if negb (String.eqb shortName ("." ++ pathSeparator ++ "vars.yaml"))
      then Some (app list [mkEntry longName shortName])
      else Some list
  | DirNode name children =>
      let longName := longRoot ++ pathSeparator ++ name in
      let shortName := shortRoot ++ pathSeparator ++ name in
      (fix loop (entries : Datatypes.list Node) (list : Datatypes.list Entry)
         : option (Datatypes.list Entry) :=
         match entries with
         | [] => Some list
         | entry :: rest =>
             match listNode longName shortName entry list with
             | Some list' => loop rest list'
             | None => None
             end
         end) children list
  | UnreadableDir _ => None
  end.

(** The loop of [listFiles] over the entries of one directory. *)
Fixpoint listLoop (longRoot shortRoot : string) (entries : list Node)
    (list : Datatypes.list Entry) : option (Datatypes.list Entry) :=
  match entries with
  | [] => Some list
  | entry :: rest =>
      match listNode longRoot shortRoot entry list with
      | Some list' => listLoop longRoot shortRoot rest list'
      | None => None
      end
  end.

(** [listFiles(longRoot, shortRoot, list)]: [os.ReadDir(longRoot)] (whose
    failure is [None]) then the loop. *)
Definition listFiles (longRoot shortRoot : string) (contents : option (list Node))
    (list : Datatypes.list Entry) : option (Datatypes.list Entry) :=
  match contents with
  | None => None
  | Some entries => listLoop longRoot shortRoot entries list
  end.

(** A regular file at the relative path [rel] below a directory entry. *)
Inductive FileIn : Node -> string -> Prop :=
| FileIn_file name : FileIn (FileNode name) name
| FileIn_dir name children n rel :
    In n children -> FileIn n rel ->
    FileIn (DirNode name children) (name ++ pathSeparator ++ rel).

(** A regular file at the relative path [rel] of a directory. *)
Definition FileAt (entries : list Node) (rel : string) : Prop :=
  Exists (fun n => FileIn n rel) entries.

(** An unreadable directory somewhere below a directory. *)
Inductive UnreadableAt : list Node -> Prop :=
| UnreadableAt_here name rest : UnreadableAt (UnreadableDir name :: rest)
| UnreadableAt_below name children rest :
    UnreadableAt children -> UnreadableAt (DirNode name children :: rest)
| UnreadableAt_later n rest : UnreadableAt rest -> UnreadableAt (n :: rest).

(** ** The diagnostics of a comparison *)

(** A diagnostic as the comparison builds it: an [Error] literal with no
    [entry] field, in one of the three categories. *)
Definition Tagged (e : Error) : Prop :=
  entry e = zeroEntry /\
  (category e = "match_error" \/ category e = "response_error" \/
   category e = "spec_error").

(** [m] only appends diagnostics, all of them [Tagged]. *)
Definition Appends {A} (m : M A) : Prop :=
  forall s a s', m s = Some (a, s') ->
    exists new, s' = (s ++ new)%list /\ Forall Tagged new.

(** ** Predicates of the specification *)

(** The operators and the comparators never report a [match_error]. *)
Definition notMatch (e : Error) : Prop := category e <> "match_error".

(** [m] only appends diagnostics, none of them a [match_error], and
    appends none when its result passes [ok]. *)
Definition Sound {A} (ok : A -> bool) (m : M A) : Prop :=
  forall s a s', m s = Some (a, s') ->
    exists new, s' = (s ++ new)%list /\ Forall notMatch new /\ (ok a = true -> new = []).

Definition isTrue (b : bool) : bool := b.

(** The operators reached through the entries of an operand mapping. *)
Definition EntriesSound (rm : string -> string -> option bool) (ev : GoValue) : Prop :=
  forall kvs, ev = GMap kvs ->
  Forall (fun kv => forall av' pa' pe',
            Sound isTrue (operate rm av' (fst kv) (snd kv) pa' pe')) kvs.

(** The verdict of [compareValues] that counts as a match. *)
Definition verdictOk (r : option bool) : bool :=
  match r with Some true => true | _ => false end.

(** The diagnostic of the first loop of [compareObjects] for [key]. *)
Definition unknownKeyError (pa pe key : string) : Error :=
  err ("Unknown key " ++ key) (pa ++ "." ++ key) (pe ++ ".$unknown") "match_error".

(** The diagnostic of the second loop for an absent required [expectedKey]. *)
Definition missingKeyError (pa pe expectedKey : string) : Error :=
  err ("Cannot find required key '" ++ actualKeyOf expectedKey ++ "'")
      (pa ++ ".<" ++ actualKeyOf expectedKey ++ ">")
      (pe ++ "." ++ expectedKey) "match_error".

(** The two classes of [match_error], told apart by their messages. *)
Definition isUnknownKeyError (e : Error) : bool :=
  String.eqb (category e) "match_error" && String.prefix "Unknown key " (message e).

Definition isMissingKeyError (e : Error) : bool :=
  String.eqb (category e) "match_error" &&
  String.prefix "Cannot find required key '" (message e).

(** An actual key that the expected mapping has in neither form. *)
Definition unknownIn (expected : list (string * GoValue)) (key : string) : bool :=
  negb (isSome (lookup key expected)) && negb (isSome (lookup (key ++ "?") expected)).

(** An expected key that is required and absent from the actual mapping. *)
Definition missingRequired (actual : list (string * GoValue)) (expectedKey : string) : bool :=
  negb (hasSuffix expectedKey "?") && negb (isSome (lookup (actualKeyOf expectedKey) actual)).

(** ** Induction over Go values *)

Section GoValueInd.

Variable P : GoValue -> Prop.
Hypothesis HNil : P GNil.
Hypothesis HBool : forall b, P (GBool b).
Hypothesis HNumber : forall t, P (GNumber t).
Hypothesis HInt : forall z, P (GInt z).
Hypothesis HFloat : forall t, P (GFloat t).
Hypothesis HString : forall s, P (GString s).
Hypothesis HSeq : forall xs, Forall P xs -> P (GSeq xs).
Hypothesis HMap : forall kvs, Forall (fun kv => P (snd kv)) kvs -> P (GMap kvs).

Fixpoint GoValue_deep_ind (v : GoValue) : P v :=
  match v with
  | GNil => HNil
  | GBool b => HBool b
  | GNumber t => HNumber t
  | GInt z => HInt z
  | GFloat t => HFloat t
  | GString s => HString s
  | GSeq xs =>
      HSeq xs ((fix go (l : list GoValue) : Forall P l :=
                  match l with
                  | [] => Forall_nil _
                  | x :: l' => Forall_cons _ (GoValue_deep_ind x) (go l')
                  end) xs)
  | GMap kvs =>
      HMap kvs ((fix go (l : list (string * GoValue))
                   : Forall (fun kv => P (snd kv)) l :=
                  match l with
                  | [] => Forall_nil _
                  | (k, x) :: l' => Forall_cons (P := fun kv => P (snd kv))
                                      (k, x) (GoValue_deep_ind x) (go l')
                  end) kvs)
  end.

End GoValueInd.

(** ** Induction over directory trees *)

Section NodeInd.

Variable P : Node -> Prop.
Hypothesis HFile : forall name, P (FileNode name).
Hypothesis HDir : forall name children, Forall P children -> P (DirNode name children).
Hypothesis HUnreadable : forall name, P (UnreadableDir name).

Fixpoint Node_deep_ind (n : Node) : P n :=
  match n with
  | FileNode name => HFile name
  | DirNode name children =>
      HDir name children
        ((fix go (l : list Node) : Forall P l :=
            match l with
            | [] => Forall_nil _
            | x :: l' => Forall_cons _ (Node_deep_ind x) (go l')
            end) children)
  | UnreadableDir name => HUnreadable name
  end.

End NodeInd.

(** The entry [listFiles] appends for a file at the relative path [rel]
    below [longRoot] / [shortRoot], unless it is [./vars.yaml]. *)
Definition Listed (longRoot shortRoot : string) (e : Entry) (rel : string) : Prop :=
  shortRoot ++ pathSeparator ++ rel <> "." ++ pathSeparator ++ "vars.yaml" /\
  e = mkEntry (longRoot ++ pathSeparator ++ rel) (shortRoot ++ pathSeparator ++ rel).

(** The operators reached through the entries of an operand mapping only
    append [Tagged] diagnostics. *)
Definition EntriesTagged (rm : string -> string -> option bool) (ev : GoValue) : Prop :=
  forall kvs, ev = GMap kvs ->
  Forall (fun kv => forall av' pa' pe', Appends (operate rm av' (fst kv) (snd kv) pa' pe')) kvs.

(** A test case used by the examples below. *)
Definition exampleCase (target : string) : TestCase :=
  mkTestCase target [] [("id", GString "$number"); ("tag?", GString "$string")].

(** * Properties *)

(** ** The model on the examples of the documentation *)

Example refer_one :
  refer (fun _ q => if String.eqb q "$.vars.host" then Some (GString "http://h")
                    else None)
    10 "GET {{ vars.host }}/m" (GMap []) = Referred "GET http://h/m".
Proof. reflexivity. Qed.

Example compare_spec_example :
  compareObjects literalRegex
    [("id", GNumber "1"); ("name", GString "Mountain")]
    [("id", GString "$number"); ("name", GMap [("$regex", GString "Mount")]);
     ("tag?", GString "$string")] "$root" "$root.out" [] = Some (tt, []).
Proof. reflexivity. Qed.

Example compare_spec_example2 :
  compareObjects literalRegex
    [("id", GString "1"); ("name", GString "Mountain"); ("extra", GBool true)]
    [("id", GString "$number"); ("name", GMap [("$regex", GString "Mount")]);
     ("tag?", GString "$string")] "$root" "$root.out" []
  = Some (tt, [err "Unknown key extra" "$root.extra" "$root.out.$unknown" "match_error";
               err "Unexpected value type" "$root.id" "$root.out.id:$number" "response_error"]).
Proof. reflexivity. Qed.


(** ** Diagnostics appended by the operators *)


Ltac unfold_M :=
  unfold typeOf, printf in *; unfold bind, ret, emit, panic in *.

Ltac split_H H :=
  repeat (simpl in H;
          match type of H with
          | context [typeName ?v] => destruct (typeName v) eqn:?
          | context [if ?c then _ else _] => destruct c eqn:?
          | context [match ?x with _ => _ end] => destruct x eqn:?
          end); simpl in H.

Ltac close_sound :=
  match goal with
  | H : Some _ = Some _ |- _ => injection H; clear H; intros; subst
  | H : None = Some _ |- _ => discriminate H
  end;
  first
    [ exists []; rewrite app_nil_r; split; [reflexivity | split; [constructor | auto]]
    | eexists; split; [reflexivity | split;
        [ repeat constructor; unfold notMatch; simpl; discriminate
        | unfold isTrue; let Hok := fresh "Hok" in intro Hok;
          first [discriminate | rewrite Hok in *; simpl in *; discriminate] ]] ].

Lemma compareStringString_sound av ev pa pe inv :
  Sound isTrue (compareStringString av ev pa pe inv).
Proof.
  intros s b s' H. unfold compareStringString in H. unfold_M.
  split_H H; close_sound.
Qed.

Lemma compareNumberString_sound av ev pa pe inv :
  Sound isTrue (compareNumberString av ev pa pe inv).
Proof.
  intros s b s' H. unfold compareNumberString in H. unfold_M.
  split_H H; close_sound.
Qed.

Lemma compareNumberInt_sound av ev pa pe inv :
  Sound isTrue (compareNumberInt av ev pa pe inv).
Proof.
  intros s b s' H. unfold compareNumberInt in H. unfold_M.
  split_H H; close_sound.
Qed.

Lemma executeIsOperator_sound av t pa pe inv :
  Sound isTrue (executeIsOperator av t pa pe inv).
Proof.
  intros s b s' H. unfold executeIsOperator in H. unfold_M.
  split_H H; close_sound.
Qed.

Lemma executeRegexOperator_sound rm av t pa pe :
  Sound isTrue (executeRegexOperator rm av t pa pe).
Proof.
  intros s b s' H. unfold executeRegexOperator in H. unfold_M.
  split_H H; close_sound.
Qed.

Lemma Sound_app_assoc (s n1 n2 : list Error) : ((s ++ n1) ++ n2 = s ++ (n1 ++ n2))%list.
Proof. now rewrite app_assoc. Qed.

Section Loops.

Variable op : Operate.
Variable av : GoValue.

Lemma stringMapLoop_sound pa pe l :
  Forall (fun kv => forall pa' pe', Sound isTrue (op av (fst kv) (snd kv) pa' pe')) l ->
  forall result s b s', stringMapLoop op av pa pe result l s = Some (b, s') ->
  exists new, s' = (s ++ new)%list /\ Forall notMatch new /\
              (b = true -> new = [] /\ result = true).
Proof.
  induction 1 as [|[k v] l Hkv Hl IH]; intros result s b s' H; simpl in H.
  - unfold ret in H. injection H; intros; subst.
    exists []. rewrite app_nil_r. auto.
  - unfold bind, emit in H. simpl in Hkv.
    destruct (hasPrefix k "$").
    + destruct result.
      * match type of H with
        | context [op ?a ?x ?y ?p ?q s] => destruct (op a x y p q s) as [[r s1]|] eqn:E
        end; simpl in H; [|discriminate].
        destruct (Hkv _ _ _ _ _ E) as (n1 & -> & Hn1 & Hok1).
        destruct (IH _ _ _ _ H) as (n2 & -> & Hn2 & Hok2).
        exists (n1 ++ n2)%list. rewrite app_assoc. split; [reflexivity|].
        split; [apply Forall_app; auto|].
        intros Hb. destruct (Hok2 Hb) as [-> ->]. rewrite Hok1 by reflexivity. auto.
      * unfold ret in H.
        destruct (IH _ _ _ _ H) as (n2 & -> & Hn2 & Hok2).
        exists n2. split; [reflexivity|]. split; [auto|].
        intros Hb. destruct (Hok2 Hb) as [_ Hf]. discriminate.
    + destruct (IH _ _ _ _ H) as (n2 & -> & Hn2 & Hok2).
      eexists. rewrite <- app_assoc. split; [reflexivity|].
      split.
      * constructor; [unfold notMatch; simpl; discriminate | auto].
      * intros Hb. destruct (Hok2 Hb) as [_ Hf]. discriminate.
Qed.

Lemma numberMapLoop_sound ak l :
  Forall (fun kv => forall pa' pe', Sound isTrue (op av (fst kv) (snd kv) pa' pe')) l ->
  forall result s b s', numberMapLoop op av ak result l s = Some (b, s') ->
  exists new, s' = (s ++ new)%list /\ Forall notMatch new /\
              (b = true -> new = [] /\ result = true).
Proof.
  induction 1 as [|[k v] l Hkv Hl IH]; intros result s b s' H; simpl in H.
  - unfold ret in H. injection H; intros; subst.
    exists []. rewrite app_nil_r. auto.
  - unfold bind, emit in H. simpl in Hkv.
    destruct (hasPrefix k "$").
    + destruct result.
      * match type of H with
        | context [op ?a ?x ?y ?p ?q s] => destruct (op a x y p q s) as [[r s1]|] eqn:E
        end; simpl in H; [|discriminate].
        destruct (Hkv _ _ _ _ _ E) as (n1 & -> & Hn1 & Hok1).
        destruct (IH _ _ _ _ H) as (n2 & -> & Hn2 & Hok2).
        exists (n1 ++ n2)%list. rewrite app_assoc. split; [reflexivity|].
        split; [apply Forall_app; auto|].
        intros Hb. destruct (Hok2 Hb) as [-> ->]. rewrite Hok1 by reflexivity. auto.
      * unfold ret in H.
        destruct (IH _ _ _ _ H) as (n2 & -> & Hn2 & Hok2).
        exists n2. split; [reflexivity|]. split; [auto|].
        intros Hb. destruct (Hok2 Hb) as [_ Hf]. discriminate.
    + destruct (IH _ _ _ _ H) as (n2 & -> & Hn2 & Hok2).
      eexists. rewrite <- app_assoc. split; [reflexivity|].
      split.
      * constructor; [unfold notMatch; simpl; discriminate | auto].
      * intros Hb. destruct (Hok2 Hb) as [_ Hf]. discriminate.
Qed.

End Loops.

Section OperateSound.

Variable rm : string -> string -> option bool.


Lemma applyComparator_sound c av ev pa pe inv :
  EntriesSound rm ev ->
  Sound isTrue (applyComparator (operate rm) c av ev pa pe inv).
Proof.
  intros Hev. destruct c; simpl.
  - apply compareStringString_sound.
  - intros s b s' H. unfold compareStringMap in H.
    destruct av; try discriminate. destruct ev; try discriminate.
    destruct (stringMapLoop_sound (operate rm) (GString s0) pa pe kvs
                (Forall_impl _ (fun kv H => H (GString s0)) (Hev kvs eq_refl))
                true s b s' H) as (new & -> & Hn & Hok).
    exists new. split; [reflexivity|]. split; [assumption|].
    intros Hb. apply (Hok Hb).
  - apply compareNumberString_sound.
  - apply compareNumberInt_sound.
  - intros s b s' H. unfold compareNumberMap in H.
    destruct av; try discriminate. destruct ev; try discriminate.
    destruct (numberMapLoop_sound (operate rm) (GNumber text) pa kvs
                (Forall_impl _ (fun kv H => H (GNumber text)) (Hev kvs eq_refl))
                true s b s' H) as (new & -> & Hn & Hok).
    exists new. split; [reflexivity|]. split; [assumption|].
    intros Hb. apply (Hok Hb).
Qed.

Lemma executeNeOperator_sound av ev pa pe :
  EntriesSound rm ev ->
  Sound isTrue (executeNeOperator (operate rm) av ev pa pe).
Proof.
  intros Hev s b s' H. unfold executeNeOperator in H. unfold_M.
  destruct (typeName av) as [ta|]; [|discriminate].
  destruct (typeName ev) as [te|]; [|discriminate].
  simpl in H. destruct (equalityOperators ta te) as [c|].
  - exact (applyComparator_sound c av ev pa pe true Hev s b s' H).
  - close_sound.
Qed.

Lemma operate_sound_of_entries ev : EntriesSound rm ev ->
  forall av op pa pe, Sound isTrue (operate rm av op ev pa pe).
Proof.
  intros Hev av op pa pe s r s' H.
  assert (Hne := executeNeOperator_sound av ev pa pe Hev s r s').
  assert (His := fun t pa pe inv => executeIsOperator_sound av t pa pe inv s r s').
  assert (Hre := fun t pa pe => executeRegexOperator_sound rm av t pa pe s r s').
  destruct ev; simpl in H;
    (destruct (String.eqb op "$is"); [unfold ret in H; close_sound|]);
    (destruct (String.eqb op "$is_not");
       [unfold_M; split_H H; first [now apply (His _ _ _ _ H) | close_sound] |]);
    (destruct (String.eqb op "$ne"); [now apply Hne|]);
    (destruct (String.eqb op "$regex");
       [unfold_M; split_H H; first [now apply (Hre _ _ _ H) | close_sound] |]);
    unfold ret in H; close_sound.
Qed.

(** Every operator only appends diagnostics, never a [match_error], and
    appends none when it succeeds. *)
Lemma operate_sound : forall ev av op pa pe,
  Sound isTrue (operate rm av op ev pa pe).
Proof.
  intros ev. induction ev as [| | | | | | xs _ | kvs IH] using GoValue_deep_ind;
    apply operate_sound_of_entries; intros kvs' Heq; try discriminate.
  injection Heq as ->.
  refine (Forall_impl _ _ IH). intros [k v] Hkv av' pa' pe'. apply Hkv.
Qed.

End OperateSound.

(** ** The two loops of [compareObjects] *)

Lemma prefix_app (p t : string) : String.prefix p (p ++ t) = true.
Proof.
  induction p as [|c p IH]; simpl; [now destruct t|].
  destruct (ascii_dec c c) as [_|n]; [exact IH | now destruct n].
Qed.

Lemma eqb_app_l (p a b : string) : String.eqb (p ++ a) (p ++ b) = String.eqb a b.
Proof.
  induction p as [|c p IH]; simpl; [reflexivity|].
  rewrite Ascii.eqb_refl. exact IH.
Qed.

Lemma compareValues_sound rm av ev ek ak pa pe :
  Sound verdictOk (compareValues rm av ev ek ak pa pe).
Proof.
  intros s r s' H. unfold compareValues in H.
  destruct (hasPrefix ek "$").
  - unfold bind, ret in H.
    destruct (operate rm av ek ev (pa ++ "." ++ ak) (pe ++ "." ++ ek) s)
      as [[b s1]|] eqn:E; [|discriminate].
    injection H as <- <-.
    destruct (operate_sound rm ev av ek _ _ s b s1 E) as (new & -> & Hn & Hok).
    exists new. split; [reflexivity|]. split; [assumption|].
    intros Hb. apply Hok. destruct b; [reflexivity | discriminate].
  - unfold_M. destruct (typeName av) as [ta|]; [|discriminate].
    destruct (typeName ev) as [te|]; [|discriminate].
    simpl in H. destruct (equalityOperators ta te) as [c|].
    + match type of H with
      | context [applyComparator ?o c ?a ?e ?p ?q ?i s] =>
          destruct (applyComparator o c a e p q i s) as [[b s1]|] eqn:E
      end; [|discriminate].
      injection H as <- <-.
      assert (Hev : EntriesSound rm ev).
      { intros kvs ->. apply Forall_forall. intros [k v] _ a' p' q'.
        apply operate_sound. }
      destruct (applyComparator_sound rm c av ev _ _ false Hev s b s1 E)
        as (new & -> & Hn & Hok).
      exists new. split; [reflexivity|]. split; [assumption|].
      intros Hb. apply Hok. destruct b; [reflexivity | discriminate].
    + injection H as <- <-. exists []. rewrite app_nil_r. auto.
Qed.

Lemma forRange_filter {A} (p : Error -> bool) (g : A -> list Error)
    (l : list A) (body : A -> M unit) :
  (forall x s s', In x l -> body x s = Some (tt, s') ->
     exists new, s' = (s ++ new)%list /\ filter p new = g x) ->
  forall s s', forRange l body s = Some (tt, s') ->
  exists new, s' = (s ++ new)%list /\ filter p new = flat_map g l.
Proof.
  induction l as [|x l IH]; intros Hbody s s' H; simpl in H.
  - unfold ret in H. injection H as <-. exists []. rewrite app_nil_r. auto.
  - unfold bind in H.
    destruct (body x s) as [[[] s1]|] eqn:E; [|discriminate].
    destruct (Hbody x s s1 (or_introl eq_refl) E) as (n1 & -> & Hn1).
    destruct (IH (fun y s s' Hy => Hbody y s s' (or_intror Hy)) _ _ H)
      as (n2 & -> & Hn2).
    exists (n1 ++ n2)%list. rewrite app_assoc. split; [reflexivity|].
    simpl. rewrite filter_app, Hn1, Hn2. reflexivity.
Qed.

Lemma filter_notMatch (p : Error -> bool) (new : list Error) :
  (forall e, p e = true -> category e = "match_error") ->
  Forall notMatch new -> filter p new = [].
Proof.
  intros Hp Hn. induction Hn as [|e new He Hn IH]; simpl; [reflexivity|].
  destruct (p e) eqn:E; [|exact IH].
  exfalso. apply He, Hp, E.
Qed.

Lemma isUnknownKeyError_match e :
  isUnknownKeyError e = true -> category e = "match_error".
Proof.
  unfold isUnknownKeyError. intros H. apply andb_true_iff in H as [H _].
  now apply String.eqb_eq.
Qed.

Lemma isMissingKeyError_match e :
  isMissingKeyError e = true -> category e = "match_error".
Proof.
  unfold isMissingKeyError. intros H. apply andb_true_iff in H as [H _].
  now apply String.eqb_eq.
Qed.

Lemma checkUnknownKey_spec expected pa pe key s s' :
  checkUnknownKey expected pa pe key s = Some (tt, s') ->
  s' = (s ++ if unknownIn expected key then [unknownKeyError pa pe key] else [])%list.
Proof.
  unfold checkUnknownKey, unknownIn, unknownKeyError.
  destruct (negb (isSome (lookup key expected)) &&
            negb (isSome (lookup (key ++ "?") expected)));
    unfold emit, ret; intros H; injection H as <-;
    [reflexivity | now rewrite app_nil_r].
Qed.

Lemma isUnknownKeyError_unknown pa pe key :
  isUnknownKeyError (unknownKeyError pa pe key) = true.
Proof. apply andb_true_iff. split; [reflexivity | apply prefix_app]. Qed.

Lemma isMissingKeyError_unknown pa pe key :
  isMissingKeyError (unknownKeyError pa pe key) = false.
Proof. reflexivity. Qed.

Lemma isMissingKeyError_missing pa pe ek :
  isMissingKeyError (missingKeyError pa pe ek) = true.
Proof. apply andb_true_iff. split; [reflexivity | apply prefix_app]. Qed.

Lemma isUnknownKeyError_missing pa pe ek :
  isUnknownKeyError (missingKeyError pa pe ek) = false.
Proof. reflexivity. Qed.

Lemma checkExpectedKey_spec rm actual pa pe ek ev s s' :
  checkExpectedKey rm actual pa pe (ek, ev) s = Some (tt, s') ->
  exists new, s' = (s ++ new)%list /\
    filter isMissingKeyError new =
      (if missingRequired actual ek then [missingKeyError pa pe ek] else []) /\
    filter isUnknownKeyError new = [].
Proof.
  unfold checkExpectedKey, missingRequired. intros H.
  destruct (lookup (actualKeyOf ek) actual) as [av|] eqn:E.
  - rewrite andb_false_r.
    unfold bind, ret in H.
    destruct (compareValues rm av ev ek (actualKeyOf ek) pa pe s)
      as [[r s1]|] eqn:C; [|discriminate].
    injection H as <-.
    destruct (compareValues_sound rm av ev ek _ pa pe s r s1 C) as (new & -> & Hn & _).
    exists new. split; [reflexivity|]. split.
    + apply filter_notMatch; [apply isMissingKeyError_match | exact Hn].
    + apply filter_notMatch; [apply isUnknownKeyError_match | exact Hn].
  - simpl. rewrite andb_true_r.
    destruct (hasSuffix ek "?"); simpl in H; unfold emit, ret in H;
      injection H as <-.
    + exists []. rewrite app_nil_r. auto.
    + exists [missingKeyError pa pe ek]. split; [reflexivity|].
      cbn [filter]. rewrite isMissingKeyError_missing, isUnknownKeyError_missing. auto.
Qed.

Lemma flat_map_if {A} (q : A -> bool) (f : A -> Error) (l : list A) :
  flat_map (fun x => if q x then [f x] else []) l = map f (filter q l).
Proof.
  induction l as [|x l IH]; simpl; [reflexivity|].
  destruct (q x); simpl; now rewrite IH.
Qed.

Lemma flat_map_nil {A B} (l : list A) : flat_map (fun _ => @nil B) l = [].
Proof. induction l; simpl; auto. Qed.

Lemma string_app_assoc (a b c : string) : a ++ b ++ c = (a ++ b) ++ c.
Proof. induction a as [|x a IH]; simpl; [reflexivity | now rewrite IH]. Qed.

Lemma count_absent (pre : string) (proj : Error -> string) (f : string -> Error)
    (q : string -> bool) (l : list string) (k : string) :
  (forall x, proj (f x) = pre ++ x) -> ~ In k l ->
  length (filter (fun e => String.eqb (proj e) (pre ++ k)) (map f (filter q l))) = 0.
Proof.
  intros Hf. induction l as [|x l IH]; intros Hk; simpl; [reflexivity|].
  destruct (q x); simpl; [|apply IH; intro; apply Hk; now right].
  rewrite Hf, eqb_app_l.
  destruct (String.eqb_spec x k) as [->|_]; [exfalso; apply Hk; now left|].
  simpl. apply IH. intro; apply Hk; now right.
Qed.

Lemma count_prefixed (pre : string) (proj : Error -> string) (f : string -> Error)
    (q : string -> bool) (l : list string) (k : string) :
  (forall x, proj (f x) = pre ++ x) -> NoDup l -> In k l ->
  length (filter (fun e => String.eqb (proj e) (pre ++ k)) (map f (filter q l)))
  = if q k then 1 else 0.
Proof.
  intros Hf Hnd. induction Hnd as [|x l Hx Hnd IH]; intros Hk; [destruct Hk|].
  destruct (String.eqb_spec x k) as [->|Hne].
  - pose proof (count_absent pre proj f q l k Hf Hx) as H0. simpl.
    destruct (q k); simpl; [|exact H0].
    rewrite Hf, String.eqb_refl. simpl. now rewrite H0.
  - destruct Hk as [Hk|Hk]; [contradiction|].
    simpl. destruct (q x); simpl; [|now apply IH].
    rewrite Hf, eqb_app_l.
    destruct (String.eqb_spec x k) as [|_]; [contradiction|]. simpl. now apply IH.
Qed.

(** The diagnostics [compareObjects] appends, by class: one unknown-key
    diagnostic per actual key absent from the pattern in both forms, one
    missing-key diagnostic per absent required key, in iteration order. *)
Lemma compareObjects_filters rm actual expected pa pe s s' :
  compareObjects rm actual expected pa pe s = Some (tt, s') ->
  exists new, s' = (s ++ new)%list /\
    filter isUnknownKeyError new =
      map (unknownKeyError pa pe) (filter (unknownIn expected) (keys actual)) /\
    filter isMissingKeyError new =
      map (missingKeyError pa pe) (filter (missingRequired actual) (keys expected)).
Proof.
  unfold compareObjects, bind. intros H.
  destruct (forRange (keys actual) (checkUnknownKey expected pa pe) s)
    as [[[] s1]|] eqn:E1; [|discriminate].
  destruct (forRange_filter isUnknownKeyError
              (fun k => if unknownIn expected k then [unknownKeyError pa pe k] else [])
              (keys actual) _
              (fun k s0 s0' _ Hk => ex_intro _ _ (conj (checkUnknownKey_spec _ _ _ _ _ _ Hk)
                 (match unknownIn expected k as b
                    return filter isUnknownKeyError
                             (if b then [unknownKeyError pa pe k] else []) =
                           (if b then [unknownKeyError pa pe k] else []) with
                  | true => ltac:(cbn [filter]; now rewrite isUnknownKeyError_unknown)
                  | false => eq_refl
                  end)))
              s s1 E1) as (n1 & -> & Hu1).
  destruct (forRange_filter isMissingKeyError (fun _ => []) (keys actual) _
              (fun k s0 s0' _ Hk => ex_intro _ _ (conj (checkUnknownKey_spec _ _ _ _ _ _ Hk)
                 (match unknownIn expected k as b
                    return filter isMissingKeyError
                             (if b then [unknownKeyError pa pe k] else []) = [] with
                  | true => ltac:(cbn [filter]; now rewrite isMissingKeyError_unknown)
                  | false => eq_refl
                  end)))
              s _ E1) as (n1' & Heq & Hm1).
  apply app_inv_head in Heq. subst n1'.
  destruct (forRange_filter isMissingKeyError
              (fun kv => if missingRequired actual (fst kv)
                         then [missingKeyError pa pe (fst kv)] else [])
              expected _
              (fun kv s0 s0' _ Hk =>
                 match kv as kv0 return
                   checkExpectedKey rm actual pa pe kv0 s0 = Some (tt, s0') ->
                   exists new, s0' = (s0 ++ new)%list /\
                     filter isMissingKeyError new =
                     (if missingRequired actual (fst kv0)
                      then [missingKeyError pa pe (fst kv0)] else [])
                 with (ek, ev) => fun Hk' =>
                   let (new, Hn) := checkExpectedKey_spec rm actual pa pe ek ev s0 s0' Hk' in
                   ex_intro _ new (conj (proj1 Hn) (proj1 (proj2 Hn)))
                 end Hk)
              _ _ H) as (n2 & -> & Hm2).
  destruct (forRange_filter isUnknownKeyError (fun _ => []) expected _
              (fun kv s0 s0' _ Hk =>
                 match kv as kv0 return
                   checkExpectedKey rm actual pa pe kv0 s0 = Some (tt, s0') ->
                   exists new, s0' = (s0 ++ new)%list /\
                     filter isUnknownKeyError new = []
                 with (ek, ev) => fun Hk' =>
                   let (new, Hn) := checkExpectedKey_spec rm actual pa pe ek ev s0 s0' Hk' in
                   ex_intro _ new (conj (proj1 Hn) (proj2 (proj2 Hn)))
                 end Hk)
              _ _ H) as (n2' & Heq & Hu2).
  apply app_inv_head in Heq. subst n2'.
  exists (n1 ++ n2)%list. rewrite app_assoc. split; [reflexivity|].
  rewrite !filter_app, Hu1, Hm1, Hm2, Hu2, !flat_map_nil, app_nil_r.
  simpl. rewrite flat_map_if. split; [reflexivity|]. unfold keys. clear.
  induction expected as [|[ek ev] expected IH]; simpl; [reflexivity|].
  destruct (missingRequired actual ek); simpl; now rewrite IH.
Qed.

(** ** C4: unknown keys *)

(** C4. For every key of the actual mapping that the expected mapping has
    neither as such nor with the optionality suffix [?], [compareObjects]
    appends exactly one [match_error] "Unknown key" diagnostic, with actual
    path [prefix.key] and expected path [prefix.$unknown]; keys present in
    either form produce none. The "Unknown key" diagnostics appended are
    exactly these, in iteration order (whatever that order is), and counted
    per key (Go map keys are unique) there is one for each unknown key and
    none for the others. *)
Theorem compareObjects_unknown_keys rm actual expected pa pe s s' :
  compareObjects rm actual expected pa pe s = Some (tt, s') ->
  exists new, s' = (s ++ new)%list /\
    filter isUnknownKeyError new =
      map (unknownKeyError pa pe) (filter (unknownIn expected) (keys actual)) /\
    (NoDup (keys actual) -> forall key, In key (keys actual) ->
       length (filter (fun e => String.eqb (message e) ("Unknown key " ++ key))
                      (filter isUnknownKeyError new))
       = if unknownIn expected key then 1 else 0).
Proof.
  intros H.
  destruct (compareObjects_filters rm actual expected pa pe s s' H)
    as (new & -> & Hu & _).
  exists new. split; [reflexivity|]. split; [exact Hu|].
  intros Hnd key Hin. rewrite Hu.
  apply (count_prefixed "Unknown key " message (unknownKeyError pa pe)); auto.
Qed.

(** ** C3: missing keys *)

(** C3. For an expected key whose lookup key (the key without its suffix
    [?]) is absent from the actual mapping, the step of [compareObjects]
    for that key appends exactly one [match_error] diagnostic when the key
    is required, with actual path [prefix.<key>] (for the prefix [$root]:
    [$root.<key>], angle brackets included) and expected path
    [expectedPrefix.key], and appends nothing when the key carries the
    suffix [?]. Over the whole comparison the "missing required key"
    diagnostics are exactly one per absent required key, in iteration
    order, and counted per key (unique keys) one for such a key and none for
    an optional one. *)
Theorem compareObjects_missing_keys rm actual expected pa pe s s' :
  (forall ek ev s0, lookup (actualKeyOf ek) actual = None ->
     checkExpectedKey rm actual pa pe (ek, ev) s0 =
     Some (tt, (s0 ++ if hasSuffix ek "?" then [] else [missingKeyError pa pe ek])%list)) /\
  (compareObjects rm actual expected pa pe s = Some (tt, s') ->
   exists new, s' = (s ++ new)%list /\
    filter isMissingKeyError new =
      map (missingKeyError pa pe) (filter (missingRequired actual) (keys expected)) /\
    (NoDup (keys expected) -> forall ek, In ek (keys expected) ->
       lookup (actualKeyOf ek) actual = None ->
       length (filter (fun e => String.eqb (expectedKey e) (pe ++ "." ++ ek))
                      (filter isMissingKeyError new))
       = if hasSuffix ek "?" then 0 else 1)).
Proof.
  split.
  - intros ek ev s0 Hnone. unfold checkExpectedKey. rewrite Hnone.
    destruct (hasSuffix ek "?"); simpl; unfold ret, emit;
      [now rewrite app_nil_r | reflexivity].
  - intros H.
    destruct (compareObjects_filters rm actual expected pa pe s s' H)
      as (new & -> & _ & Hm).
    exists new. split; [reflexivity|]. split; [exact Hm|].
    intros Hnd ek Hin Hnone. rewrite Hm, string_app_assoc.
    rewrite (count_prefixed (pe ++ ".") expectedKey (missingKeyError pa pe)); auto.
    + unfold missingRequired. rewrite Hnone.
      destruct (hasSuffix ek "?"); reflexivity.
    + intros x. unfold missingKeyError, err. cbn [expectedKey].
      apply string_app_assoc.
Qed.

(** ** C2: soundness of the structural comparator *)

Lemma lookup_In {A} (k : string) (m : list (string * A)) :
  In k (keys m) -> isSome (lookup k m) = true.
Proof.
  induction m as [|[k' v] m IH]; simpl; [intros []|].
  intros [->|Hin]; [now rewrite String.eqb_refl|].
  destruct (String.eqb k k'); [reflexivity | now apply IH].
Qed.

Lemma forRange_noop {A} (l : list A) (body : A -> M unit) (s : list Error) :
  (forall x, In x l -> body x s = Some (tt, s)) -> forRange l body s = Some (tt, s).
Proof.
  induction l as [|x l IH]; intros Hb; simpl; [reflexivity|].
  unfold bind. rewrite (Hb x (or_introl eq_refl)).
  apply IH. intros y Hy. apply Hb. now right.
Qed.

(** C2. When every actual key is an expected key or the optional form of
    one, and every expected key is present (after stripping [?]) in the
    actual mapping with a value on which the comparison [compareObjects]
    performs at that key (operator or comparator-table entry) succeeds,
    [compareObjects] appends no diagnostic. *)
Theorem compareObjects_no_diagnostics rm actual expected pa pe :
  (forall key, In key (keys actual) ->
     In key (keys expected) \/ In (key ++ "?") (keys expected)) ->
  (forall ek ev, In (ek, ev) expected ->
     exists av, lookup (actualKeyOf ek) actual = Some av /\
       forall s0, exists s1,
         compareValues rm av ev ek (actualKeyOf ek) pa pe s0 = Some (Some true, s1)) ->
  forall s, compareObjects rm actual expected pa pe s = Some (tt, s).
Proof.
  intros Hknown Hmatch s. unfold compareObjects, bind.
  rewrite forRange_noop.
  - apply forRange_noop. intros [ek ev] Hin.
    destruct (Hmatch ek ev Hin) as (av & Hav & Hc).
    destruct (Hc s) as [s1 Hs1].
    destruct (compareValues_sound rm av ev ek _ pa pe s _ s1 Hs1) as (new & -> & _ & Hok).
    rewrite (Hok eq_refl), app_nil_r in Hs1.
    unfold checkExpectedKey. rewrite Hav. unfold bind. rewrite Hs1. reflexivity.
  - intros key Hin. unfold checkUnknownKey.
    destruct (Hknown key Hin) as [H1|H1]; apply lookup_In in H1; rewrite H1;
      [reflexivity | now rewrite andb_false_r].
Qed.

(** ** C1: [$is] and [$is_not] *)

(** C1 (defect). [operate] with [$is: $string] on a string: the empty
    [case "$is":] of the Go [switch] does not fall through to the
    [$is_not] block, so [$is] fails without appending any diagnostic, on a
    string as on any other value. *)
Theorem operate_is_string_on_string rm pa pe s :
  operate rm (GString "Everest") "$is" (GString "$string") pa pe s = Some (false, s).
Proof. reflexivity. Qed.

(** [$is_not: $string] itself behaves as documented on non-null values. *)
Lemma operate_is_not_string rm av ta pa pe s :
  typeName av = Some ta ->
  operate rm av "$is_not" (GString "$string") pa pe s =
  if String.eqb ta "string"
  then Some (false, (s ++ [err "Value type matched" pa (pa ++ ".$is_not") "response_error"])%list)
  else Some (true, s).
Proof.
  intros Hta. simpl. unfold executeIsOperator, typeOf, bind, ret, emit.
  rewrite Hta. simpl.
  replace (trimPrefix "$string" "$") with "string" by reflexivity.
  destruct (String.eqb ta "string"); reflexivity.
Qed.

(** ** C6: [$ne] *)

(** C6 (counterexample). [$ne: null] on a string: the kind pair of the
    operand is not in the comparator table, yet [$ne] does not return
    failure: [reflect.TypeOf(nil).String()] panics. *)
Lemma ne_null_operand_panics :
  operate literalRegex (GString "Everest") "$ne" GNil "$root.name" "$root.out.name.$ne" []
  = None.
Proof. reflexivity. Qed.

(** C6. [$ne] with a string operand not starting with [$] on an actual
    string: equal values fail with exactly one [response_error] "Values
    are equal"; different values succeed with no diagnostic; and when the
    kind pair of two non-null values is not in the comparator table, [$ne]
    fails (and appends nothing). A null actual value or a null operand has
    no kind pair at all: [reflect.TypeOf(nil).String()] panics. *)
Theorem operate_ne_string rm :
  (forall x pa pe s, hasPrefix x "$" = false ->
     operate rm (GString x) "$ne" (GString x) pa pe s =
     Some (false, (s ++ [err "Values are equal" pa pe "response_error"])%list)) /\
  (forall x y pa pe s, hasPrefix y "$" = false -> x <> y ->
     operate rm (GString x) "$ne" (GString y) pa pe s = Some (true, s)) /\
  (forall av ev ta te pa pe s,
     typeName av = Some ta -> typeName ev = Some te ->
     equalityOperators ta te = None ->
     operate rm av "$ne" ev pa pe s = Some (false, s)) /\
  (forall av ev pa pe s, av = GNil \/ ev = GNil ->
     operate rm av "$ne" ev pa pe s = None).
Proof.
  split; [|split; [|split]].
  - intros x pa pe s Hx.
    simpl. unfold executeNeOperator, typeOf, bind, ret, emit. simpl.
    unfold compareStringString. rewrite Hx, String.eqb_refl. reflexivity.
  - intros x y pa pe s Hy Hne.
    simpl. unfold executeNeOperator, typeOf, bind, ret, emit. simpl.
    unfold compareStringString. rewrite Hy.
    destruct (String.eqb_spec x y) as [->|_]; [contradiction|].
    reflexivity.
  - intros av ev ta te pa pe s Ha He Hn.
    assert (Hop : operate rm av "$ne" ev pa pe =
                  executeNeOperator (operate rm) av ev pa pe)
      by (destruct ev; reflexivity).
    rewrite Hop. unfold executeNeOperator, typeOf, bind, ret, printf.
    rewrite Ha, He, Hn. reflexivity.
  - intros av ev pa pe s [Ha | He]; subst; [destruct ev | destruct av]; reflexivity.
Qed.

(** ** C10: the [(json.Number, string)] comparator ignores [inverse] *)

(** C10. The [(json.Number, string)] comparator gives the same result and
    the same diagnostics for [inverse = true] and [inverse = false], on all
    inputs; in particular [$ne: $number] on an actual number succeeds and
    appends nothing. *)
Theorem compareNumberString_ignores_inverse rm :
  (forall av ev pa pe s,
     compareNumberString av ev pa pe true s = compareNumberString av ev pa pe false s) /\
  (forall t pa pe s,
     operate rm (GNumber t) "$ne" (GString "$number") pa pe s = Some (true, s)).
Proof.
  split.
  - reflexivity.
  - reflexivity.
Qed.

(** ** C5: kind pairs missing from the comparator table *)

(** C5 (counterexample). A [bool] against a [bool] is not in the table:
    [compareObjects] appends no diagnostic at all for that key, and
    neither does [$ne] on two booleans; both only print to standard
    output. *)
Lemma unsupported_pair_no_diagnostic :
  compareObjects literalRegex [("active", GBool true)] [("active", GBool true)]
    "$root" "$root.out" [] = Some (tt, []) /\
  operate literalRegex (GBool true) "$ne" (GBool false) "$root.active"
    "$root.out.active.$ne" [] = Some (false, []).
Proof. split; reflexivity. Qed.

(** C5 (as the code does it). For two non-null values whose kind pair is
    not in the comparator table, the comparison of [compareObjects] at a
    non-operator key appends no diagnostic and returns normally (the loop
    goes on with the next key), and [$ne] appends no diagnostic and fails. *)
Theorem unsupported_pair_printed_only rm av ev ta te :
  typeName av = Some ta -> typeName ev = Some te ->
  equalityOperators ta te = None ->
  (forall ek ak pa pe s, hasPrefix ek "$" = false ->
     compareValues rm av ev ek ak pa pe s = Some (None, s)) /\
  (forall pa pe s, operate rm av "$ne" ev pa pe s = Some (false, s)).
Proof.
  intros Ha He Hn. split.
  - intros ek ak pa pe s Hek. unfold compareValues. rewrite Hek.
    unfold typeOf, bind, ret, printf. rewrite Ha, He, Hn. reflexivity.
  - intros pa pe s.
    assert (Hop : operate rm av "$ne" ev pa pe =
                  executeNeOperator (operate rm) av ev pa pe)
      by (destruct ev; reflexivity).
    rewrite Hop. unfold executeNeOperator, typeOf, bind, ret, printf.
    rewrite Ha, He, Hn. reflexivity.
Qed.

(** ** C7: [$regex] *)

(** C7 (counterexample). [$regex: 5] against the number 42: the operand
    check comes first, and the single diagnostic is a [spec_error], not a
    [response_error]. *)
Lemma regex_non_string_operand_on_number :
  operate literalRegex (GNumber "42") "$regex" (GInt 5) "$root.id" "$root.out.id.$regex" []
  = Some (false, [err "$regex operator expects regex pattern" "$root.id"
                      "$root.out.id.$regex" "spec_error"]).
Proof. reflexivity. Qed.

(** C7 (as the code does it). [$regex] with a non-null, non-string operand
    fails with exactly one [spec_error], whatever the actual value. With a
    string operand: on a non-null, non-string actual value it fails with
    exactly one [response_error], and the result does not involve the regex
    engine [rm] at all; on a string, a pattern that does not compile gives
    one [spec_error], a match succeeds with no diagnostic, and a mismatch
    fails with one [response_error]. A null operand, or a null actual value
    with a string operand, makes [reflect.TypeOf(nil).String()] panic. *)
Theorem operate_regex rm av pa pe s :
  (forall operand, operand <> GNil -> (forall t, operand <> GString t) ->
     operate rm av "$regex" operand pa pe s =
     Some (false, (s ++ [err "$regex operator expects regex pattern" pa pe "spec_error"])%list)) /\
  (forall t, av <> GNil -> (forall x, av <> GString x) ->
     operate rm av "$regex" (GString t) pa pe s =
     Some (false, (s ++ [err "Unexpected value type" pa pe "response_error"])%list)) /\
  (forall x t, rm t x = None ->
     operate rm (GString x) "$regex" (GString t) pa pe s =
     Some (false, (s ++ [err "Invalid regex pattern" pa pe "spec_error"])%list)) /\
  (forall x t, rm t x = Some true ->
     operate rm (GString x) "$regex" (GString t) pa pe s = Some (true, s)) /\
  (forall x t, rm t x = Some false ->
     operate rm (GString x) "$regex" (GString t) pa pe s =
     Some (false, (s ++ [err "Regex mismatch" pa pe "response_error"])%list)) /\
  operate rm av "$regex" GNil pa pe s = None /\
  (forall t, operate rm GNil "$regex" (GString t) pa pe s = None).
Proof.
  split; [|split; [|split; [|split; [|split; [|split]]]]].
  - intros operand Hnil Hstr.
    destruct operand; try contradiction; try (exfalso; eapply Hstr; reflexivity);
      reflexivity.
  - intros t Hnil Hstr. simpl. unfold executeRegexOperator, typeOf, bind, ret, emit.
    destruct av; try contradiction; try (exfalso; eapply Hstr; reflexivity);
      reflexivity.
  - intros x t Hrm. simpl. unfold executeRegexOperator, typeOf, bind, ret, emit.
    simpl. rewrite Hrm. reflexivity.
  - intros x t Hrm. simpl. unfold executeRegexOperator, typeOf, bind, ret, emit.
    simpl. rewrite Hrm. reflexivity.
  - intros x t Hrm. simpl. unfold executeRegexOperator, typeOf, bind, ret, emit.
    simpl. rewrite Hrm. simpl. reflexivity.
  - reflexivity.
  - reflexivity.
Qed.

(** ** C8: the paths of the diagnostics *)

(** C8 (defect). The [(json.Number, map)] comparator calls [operate] with
    empty paths (its [(string, map)] sibling passes the parent paths): a
    [$regex] on a number reports a diagnostic whose actual and expected
    paths are both empty. *)
Theorem number_operator_empty_paths rm :
  compareObjects rm [("id", GNumber "1")] [("id", GMap [("$regex", GString "^1$")])]
    "$root" "$root.out" []
  = Some (tt, [err "Unexpected value type" "" "" "response_error"]).
Proof. reflexivity. Qed.

(** ** C9: placeholders of the request target *)

Lemma goIndex_open_nonempty t :
  (goIndex t "{{" >= 0)%Z -> (0 < len t)%Z.
Proof.
  destruct t as [|c t]; [compute; intros H; now destruct H|].
  intros _. unfold len. simpl. lia.
Qed.

(** An unterminated [{{] keeps [refer] looping at the same index for ever:
    whatever the fuel, the loop has not finished. *)
Lemma refer_unterminated_loops jp t ctx :
  (goIndex t "{{" >= 0)%Z -> goIndex t "}}" = (-1)%Z ->
  forall fuel, refer jp fuel t ctx = ReferOutOfFuel.
Proof.
  intros Hopen Hclose fuel. unfold refer.
  pose proof (goIndex_open_nonempty t Hopen) as Hlen.
  generalize "" as buffer. induction fuel as [|fuel IH]; intros buffer; simpl;
    [reflexivity|].
  assert (E1 : (0 <? len t)%Z = true) by (apply Z.ltb_lt; exact Hlen).
  assert (E2 : (goIndex t "{{" >=? 0)%Z = true) by (rewrite Z.geb_le; lia).
  assert (E3 : (goIndex t "}}" >=? goIndex t "{{" + 2)%Z = false)
    by (rewrite Hclose, Z.geb_leb; apply Z.leb_gt; lia).
  rewrite E1, E2, E3. apply IH.
Qed.

Example refer_unterminated_example :
  refer (fun _ _ => None) 50 "GET {{ vars.host" (GMap []) = ReferOutOfFuel.
Proof. reflexivity. Qed.



(** ** Witnesses: the hypotheses of the theorems hold on concrete inputs *)

Lemma compareObjects_no_diagnostics_witness :
  (forall key, In key (keys [("id", GNumber "1"); ("name", GString "Mountain")]) ->
     In key (keys [("id", GString "$number"); ("name", GMap [("$regex", GString "Mount")])]) \/
     In (key ++ "?") (keys [("id", GString "$number");
                            ("name", GMap [("$regex", GString "Mount")])])) /\
  (forall ek ev, In (ek, ev) [("id", GString "$number");
                              ("name", GMap [("$regex", GString "Mount")])] ->
     exists av, lookup (actualKeyOf ek)
                  [("id", GNumber "1"); ("name", GString "Mountain")] = Some av /\
       forall s0, exists s1,
         compareValues literalRegex av ev ek (actualKeyOf ek) "$root" "$root.out" s0
         = Some (Some true, s1)) /\
  compareObjects literalRegex [("id", GNumber "1"); ("name", GString "Mountain")]
    [("id", GString "$number"); ("name", GMap [("$regex", GString "Mount")])]
    "$root" "$root.out" [] = Some (tt, []).
Proof.
  assert (H1 : forall key, In key (keys [("id", GNumber "1"); ("name", GString "Mountain")]) ->
     In key (keys [("id", GString "$number"); ("name", GMap [("$regex", GString "Mount")])]) \/
     In (key ++ "?") (keys [("id", GString "$number");
                            ("name", GMap [("$regex", GString "Mount")])])).
  { intros key Hin. left. exact Hin. }
  assert (H2 : forall ek ev, In (ek, ev) [("id", GString "$number");
                              ("name", GMap [("$regex", GString "Mount")])] ->
     exists av, lookup (actualKeyOf ek)
                  [("id", GNumber "1"); ("name", GString "Mountain")] = Some av /\
       forall s0, exists s1,
         compareValues literalRegex av ev ek (actualKeyOf ek) "$root" "$root.out" s0
         = Some (Some true, s1)).
  { intros ek ev [H|[H|[]]]; injection H as <- <-;
      eexists; (split; [reflexivity|]); intros s0; eexists; reflexivity. }
  split; [exact H1|]. split; [exact H2|].
  exact (compareObjects_no_diagnostics literalRegex _ _ "$root" "$root.out" H1 H2 []).
Defined.

Lemma compareObjects_missing_keys_witness :
  compareObjects literalRegex [("id", GNumber "1")]
    [("id", GString "$number"); ("name", GString "$string"); ("tag?", GString "$string")]
    "$root" "$root.out" [] = Some (tt, [missingKeyError "$root" "$root.out" "name"]) /\
  exists new, [missingKeyError "$root" "$root.out" "name"] = ([] ++ new)%list /\
    filter isMissingKeyError new =
      map (missingKeyError "$root" "$root.out")
        (filter (missingRequired [("id", GNumber "1")]) ["id"; "name"; "tag?"]) /\
    (NoDup ["id"; "name"; "tag?"] -> forall ek, In ek ["id"; "name"; "tag?"] ->
       lookup (actualKeyOf ek) [("id", GNumber "1")] = None ->
       length (filter (fun e => String.eqb (expectedKey e) ("$root.out" ++ "." ++ ek))
                      (filter isMissingKeyError new))
       = if hasSuffix ek "?" then 0 else 1).
Proof.
  assert (H : compareObjects literalRegex [("id", GNumber "1")]
    [("id", GString "$number"); ("name", GString "$string"); ("tag?", GString "$string")]
    "$root" "$root.out" [] = Some (tt, [missingKeyError "$root" "$root.out" "name"]))
    by reflexivity.
  split; [exact H|].
  exact (proj2 (compareObjects_missing_keys literalRegex _ _ "$root" "$root.out" _ _) H).
Defined.

Lemma compareObjects_unknown_keys_witness :
  compareObjects literalRegex [("id", GNumber "1"); ("extra", GBool true)]
    [("id", GString "$number")] "$root" "$root.out" []
  = Some (tt, [unknownKeyError "$root" "$root.out" "extra"]) /\
  exists new, [unknownKeyError "$root" "$root.out" "extra"] = ([] ++ new)%list /\
    filter isUnknownKeyError new =
      map (unknownKeyError "$root" "$root.out")
        (filter (unknownIn [("id", GString "$number")]) ["id"; "extra"]) /\
    (NoDup ["id"; "extra"] -> forall key, In key ["id"; "extra"] ->
       length (filter (fun e => String.eqb (message e) ("Unknown key " ++ key))
                      (filter isUnknownKeyError new))
       = if unknownIn [("id", GString "$number")] key then 1 else 0).
Proof.
  assert (H : compareObjects literalRegex [("id", GNumber "1"); ("extra", GBool true)]
    [("id", GString "$number")] "$root" "$root.out" []
    = Some (tt, [unknownKeyError "$root" "$root.out" "extra"])) by reflexivity.
  split; [exact H|].
  exact (compareObjects_unknown_keys literalRegex _ _ "$root" "$root.out" _ _ H).
Defined.

Lemma unsupported_pair_printed_only_witness :
  typeName (GBool true) = Some "bool" /\ equalityOperators "bool" "bool" = None /\
  compareValues literalRegex (GBool true) (GBool true) "active" "active"
    "$root" "$root.out" [] = Some (None, []) /\
  operate literalRegex (GBool true) "$ne" (GBool true) "$root.active"
    "$root.out.active.$ne" [] = Some (false, []).
Proof.
  destruct (unsupported_pair_printed_only literalRegex (GBool true) (GBool true)
              "bool" "bool" eq_refl eq_refl eq_refl) as [H1 H2].
  split; [reflexivity|]. split; [reflexivity|]. split.
  - apply H1. reflexivity.
  - apply H2.
Defined.

Lemma operate_ne_string_witness :
  hasPrefix "Everest" "$" = false /\ "Everest" <> "Lhotse" /\
  operate literalRegex (GString "Everest") "$ne" (GString "Everest")
    "$root.name" "$root.out.name.$ne" []
  = Some (false, [err "Values are equal" "$root.name" "$root.out.name.$ne" "response_error"]) /\
  operate literalRegex (GString "Everest") "$ne" (GString "Lhotse")
    "$root.name" "$root.out.name.$ne" [] = Some (true, []) /\
  operate literalRegex (GBool true) "$ne" (GSeq []) "$root.a" "$root.out.a.$ne" []
  = Some (false, []) /\
  operate literalRegex (GString "Everest") "$ne" GNil "$root.name" "$root.out.name.$ne" []
  = None.
Proof.
  destruct (operate_ne_string literalRegex) as (H1 & H2 & H3 & H4).
  split; [reflexivity|]. split; [discriminate|]. split; [|split; [|split]].
  - apply H1. reflexivity.
  - apply H2; [reflexivity | discriminate].
  - apply (H3 _ _ "bool" "[]interface {}"); reflexivity.
  - apply H4. right. reflexivity.
Defined.

Lemma operate_regex_witness :
  literalRegex "Everest" "Mount Everest" = Some true /\
  operate literalRegex (GNumber "42") "$regex" (GBool true) "$root.id" "$root.out.id" []
  = Some (false, [err "$regex operator expects regex pattern" "$root.id" "$root.out.id"
                      "spec_error"]) /\
  operate literalRegex (GNumber "42") "$regex" (GString "^4") "$root.id" "$root.out.id" []
  = Some (false, [err "Unexpected value type" "$root.id" "$root.out.id" "response_error"]) /\
  operate (fun _ _ => None) (GString "Everest") "$regex" (GString "(") "$root.n"
    "$root.out.n" []
  = Some (false, [err "Invalid regex pattern" "$root.n" "$root.out.n" "spec_error"]) /\
  operate literalRegex (GString "Mount Everest") "$regex" (GString "Everest") "$root.n"
    "$root.out.n" [] = Some (true, []) /\
  operate literalRegex (GString "Lhotse") "$regex" (GString "Everest") "$root.n"
    "$root.out.n" []
  = Some (false, [err "Regex mismatch" "$root.n" "$root.out.n" "response_error"]) /\
  operate literalRegex (GString "Lhotse") "$regex" GNil "$root.n" "$root.out.n" [] = None.
Proof.
  destruct (operate_regex literalRegex (GNumber "42") "$root.id" "$root.out.id" [])
    as (A1 & A2 & _).
  destruct (operate_regex (fun _ _ => None) (GString "Everest") "$root.n" "$root.out.n" [])
    as (_ & _ & B3 & _).
  destruct (operate_regex literalRegex (GString "Everest") "$root.n" "$root.out.n" [])
    as (_ & _ & _ & C4 & C5 & _).
  destruct (operate_regex literalRegex (GString "Lhotse") "$root.n" "$root.out.n" [])
    as (_ & _ & _ & _ & _ & D6 & _).
  split; [reflexivity|]. split; [|split; [|split; [|split; [|split]]]].
  - apply A1; discriminate.
  - apply A2; discriminate.
  - apply B3. reflexivity.
  - apply C4. reflexivity.
  - apply C5. reflexivity.
  - exact D6.
Defined.


(** * Further properties of the code *)

(** ** The diagnostics of a comparison *)

Ltac in_cat := repeat (first [left; reflexivity | right; reflexivity | right]).

Ltac close_tagged :=
  match goal with
  | H : Some _ = Some _ |- _ => injection H; clear H; intros; subst
  | H : None = Some _ |- _ => discriminate H
  end;
  first
    [ exists []; rewrite app_nil_r; split; [reflexivity | constructor]
    | eexists; split; [reflexivity |
        apply Forall_cons; [|apply Forall_nil];
        unfold Tagged; simpl; split; [reflexivity | in_cat]] ].

Lemma compareStringString_tagged av ev pa pe inv :
  Appends (compareStringString av ev pa pe inv).
Proof.
  intros s b s' H. unfold compareStringString in H. unfold_M.
  split_H H; close_tagged.
Qed.

Lemma compareNumberString_tagged av ev pa pe inv :
  Appends (compareNumberString av ev pa pe inv).
Proof.
  intros s b s' H. unfold compareNumberString in H. unfold_M.
  split_H H; close_tagged.
Qed.

Lemma compareNumberInt_tagged av ev pa pe inv :
  Appends (compareNumberInt av ev pa pe inv).
Proof.
  intros s b s' H. unfold compareNumberInt in H. unfold_M.
  split_H H; close_tagged.
Qed.

Lemma executeIsOperator_tagged av t pa pe inv :
  Appends (executeIsOperator av t pa pe inv).
Proof.
  intros s b s' H. unfold executeIsOperator in H. unfold_M.
  split_H H; close_tagged.
Qed.

Lemma executeRegexOperator_tagged rm av t pa pe :
  Appends (executeRegexOperator rm av t pa pe).
Proof.
  intros s b s' H. unfold executeRegexOperator in H. unfold_M.
  split_H H; close_tagged.
Qed.

Section LoopsTagged.

Variable op : Operate.
Variable av : GoValue.

Lemma stringMapLoop_tagged pa pe l :
  Forall (fun kv => forall pa' pe', Appends (op av (fst kv) (snd kv) pa' pe')) l ->
  forall result, Appends (stringMapLoop op av pa pe result l).
Proof.
  induction 1 as [|[k v] l Hkv Hl IH]; intros result s b s' H; simpl in H.
  - unfold ret in H. injection H; intros; subst.
    exists []. rewrite app_nil_r. auto.
  - unfold bind, emit in H. simpl in Hkv.
    destruct (hasPrefix k "$").
    + destruct result.
      * match type of H with
        | context [op ?a ?x ?y ?p ?q s] => destruct (op a x y p q s) as [[r s1]|] eqn:E
        end; simpl in H; [|discriminate].
        destruct (Hkv _ _ _ _ _ E) as (n1 & -> & Hn1).
        destruct (IH _ _ _ _ H) as (n2 & -> & Hn2).
        exists (n1 ++ n2)%list. rewrite app_assoc. split; [reflexivity|].
        apply Forall_app; auto.
      * unfold ret in H. exact (IH _ _ _ _ H).
    + destruct (IH _ _ _ _ H) as (n2 & -> & Hn2).
      eexists. rewrite <- app_assoc. split; [reflexivity|].
      constructor; [|exact Hn2].
      unfold Tagged; simpl; split; [reflexivity | in_cat].
Qed.

Lemma numberMapLoop_tagged ak l :
  Forall (fun kv => forall pa' pe', Appends (op av (fst kv) (snd kv) pa' pe')) l ->
  forall result, Appends (numberMapLoop op av ak result l).
Proof.
  induction 1 as [|[k v] l Hkv Hl IH]; intros result s b s' H; simpl in H.
  - unfold ret in H. injection H; intros; subst.
    exists []. rewrite app_nil_r. auto.
  - unfold bind, emit in H. simpl in Hkv.
    destruct (hasPrefix k "$").
    + destruct result.
      * match type of H with
        | context [op ?a ?x ?y ?p ?q s] => destruct (op a x y p q s) as [[r s1]|] eqn:E
        end; simpl in H; [|discriminate].
        destruct (Hkv _ _ _ _ _ E) as (n1 & -> & Hn1).
        destruct (IH _ _ _ _ H) as (n2 & -> & Hn2).
        exists (n1 ++ n2)%list. rewrite app_assoc. split; [reflexivity|].
        apply Forall_app; auto.
      * unfold ret in H. exact (IH _ _ _ _ H).
    + destruct (IH _ _ _ _ H) as (n2 & -> & Hn2).
      eexists. rewrite <- app_assoc. split; [reflexivity|].
      constructor; [|exact Hn2].
      unfold Tagged; simpl; split; [reflexivity | in_cat].
Qed.

End LoopsTagged.

Section OperateTagged.

Variable rm : string -> string -> option bool.

Lemma applyComparator_tagged c av ev pa pe inv :
  EntriesTagged rm ev -> Appends (applyComparator (operate rm) c av ev pa pe inv).
Proof.
  intros Hev. destruct c; simpl.
  - apply compareStringString_tagged.
  - intros s b s' H. unfold compareStringMap in H.
    destruct av; try discriminate. destruct ev; try discriminate.
    exact (stringMapLoop_tagged (operate rm) (GString s0) pa pe kvs
             (Forall_impl _ (fun kv H => H (GString s0)) (Hev kvs eq_refl))
             true s b s' H).
  - apply compareNumberString_tagged.
  - apply compareNumberInt_tagged.
  - intros s b s' H. unfold compareNumberMap in H.
    destruct av; try discriminate. destruct ev; try discriminate.
    exact (numberMapLoop_tagged (operate rm) (GNumber text) pa kvs
             (Forall_impl _ (fun kv H => H (GNumber text)) (Hev kvs eq_refl))
             true s b s' H).
Qed.

Lemma executeNeOperator_tagged av ev pa pe :
  EntriesTagged rm ev -> Appends (executeNeOperator (operate rm) av ev pa pe).
Proof.
  intros Hev s b s' H. unfold executeNeOperator in H. unfold_M.
  destruct (typeName av) as [ta|]; [|discriminate].
  destruct (typeName ev) as [te|]; [|discriminate].
  simpl in H. destruct (equalityOperators ta te) as [c|].
  - exact (applyComparator_tagged c av ev pa pe true Hev s b s' H).
  - close_tagged.
Qed.

Lemma operate_tagged_of_entries ev : EntriesTagged rm ev ->
  forall av op pa pe, Appends (operate rm av op ev pa pe).
Proof.
  intros Hev av op pa pe s r s' H.
  assert (Hne := executeNeOperator_tagged av ev pa pe Hev s r s').
  assert (His := fun t pa pe inv => executeIsOperator_tagged av t pa pe inv s r s').
  assert (Hre := fun t pa pe => executeRegexOperator_tagged rm av t pa pe s r s').
  destruct ev; simpl in H;
    (destruct (String.eqb op "$is"); [unfold ret in H; close_tagged|]);
    (destruct (String.eqb op "$is_not");
       [unfold_M; split_H H; first [now apply (His _ _ _ _ H) | close_tagged] |]);
    (destruct (String.eqb op "$ne"); [now apply Hne|]);
    (destruct (String.eqb op "$regex");
       [unfold_M; split_H H; first [now apply (Hre _ _ _ H) | close_tagged] |]);
    unfold ret in H; close_tagged.
Qed.

Lemma operate_tagged : forall ev av op pa pe, Appends (operate rm av op ev pa pe).
Proof.
  intros ev. induction ev as [| | | | | | xs _ | kvs IH] using GoValue_deep_ind;
    apply operate_tagged_of_entries; intros kvs' Heq; try discriminate.
  injection Heq as ->.
  refine (Forall_impl _ _ IH). intros [k v] Hkv av' pa' pe'. apply Hkv.
Qed.

End OperateTagged.

Lemma compareValues_tagged rm av ev ek ak pa pe :
  Appends (compareValues rm av ev ek ak pa pe).
Proof.
  intros s r s' H. unfold compareValues in H.
  destruct (hasPrefix ek "$").
  - unfold bind, ret in H.
    destruct (operate rm av ek ev (pa ++ "." ++ ak) (pe ++ "." ++ ek) s)
      as [[b s1]|] eqn:E; [|discriminate].
    injection H as <- <-. exact (operate_tagged rm ev av ek _ _ s b s1 E).
  - unfold_M. destruct (typeName av) as [ta|]; [|discriminate].
    destruct (typeName ev) as [te|]; [|discriminate].
    simpl in H. destruct (equalityOperators ta te) as [c|].
    + match type of H with
      | context [applyComparator ?o c ?a ?e ?p ?q ?i s] =>
          destruct (applyComparator o c a e p q i s) as [[b s1]|] eqn:E
      end; [|discriminate].
      injection H as <- <-.
      assert (Hev : EntriesTagged rm ev).
      { intros kvs ->. apply Forall_forall. intros [k v] _ a' p' q'.
        apply operate_tagged. }
      exact (applyComparator_tagged rm c av ev _ _ false Hev s b s1 E).
    + injection H as <- <-. exists []. rewrite app_nil_r. auto.
Qed.

Lemma forRange_tagged {A} (l : list A) (body : A -> M unit) :
  (forall x, In x l -> Appends (body x)) -> Appends (forRange l body).
Proof.
  induction l as [|x l IH]; intros Hb s u s' H; simpl in H.
  - unfold ret in H. injection H; intros; subst. exists []. rewrite app_nil_r. auto.
  - unfold bind in H. destruct (body x s) as [[[] s1]|] eqn:E; [|discriminate].
    destruct (Hb x (or_introl eq_refl) _ _ _ E) as (n1 & -> & Hn1).
    destruct (IH (fun y Hy => Hb y (or_intror Hy)) _ _ _ H) as (n2 & -> & Hn2).
    exists (n1 ++ n2)%list. rewrite app_assoc. split; [reflexivity|].
    apply Forall_app; auto.
Qed.

(** Every diagnostic that [compareObjects] appends is an [Error] literal
    without an [entry] (so [main] prints an empty file name for it), in
    one of the categories [match_error], [response_error] and
    [spec_error]; nothing already recorded is changed. *)
Theorem compareObjects_tagged rm actual expected pa pe s s' :
  compareObjects rm actual expected pa pe s = Some (tt, s') ->
  exists new, s' = (s ++ new)%list /\
    Forall (fun e => entry e = zeroEntry /\
                     (category e = "match_error" \/ category e = "response_error" \/
                      category e = "spec_error")) new.
Proof.
  intros H.
  assert (Hc : Appends (compareObjects rm actual expected pa pe)).
  { unfold compareObjects. intros s0 u s1 H0. unfold bind in H0.
    destruct (forRange (keys actual) (checkUnknownKey expected pa pe) s0)
      as [[[] s2]|] eqn:E; [|discriminate].
    assert (H1 : Appends (forRange (keys actual) (checkUnknownKey expected pa pe))).
    { apply forRange_tagged. intros key _ s3 u3 s4 H3. unfold checkUnknownKey in H3.
      unfold_M. split_H H3; close_tagged. }
    assert (H2 : Appends (forRange expected (checkExpectedKey rm actual pa pe))).
    { apply forRange_tagged. intros [ek ev] _ s3 u3 s4 H3. unfold checkExpectedKey in H3.
      destruct (lookup (actualKeyOf ek) actual) as [av|].
      - unfold bind, ret in H3.
        destruct (compareValues rm av ev ek (actualKeyOf ek) pa pe s3)
          as [[r s5]|] eqn:E5; [|discriminate].
        injection H3 as <- <-. exact (compareValues_tagged rm av ev ek _ pa pe s3 r s5 E5).
      - unfold_M. split_H H3; close_tagged. }
    destruct (H1 _ _ _ E) as (n1 & -> & Hn1).
    destruct (H2 _ _ _ H0) as (n2 & -> & Hn2).
    exists (n1 ++ n2)%list. rewrite app_assoc. split; [reflexivity|].
    apply Forall_app; auto. }
  exact (Hc _ _ _ H).
Qed.

Lemma stringMapLoop_after_failure op av pa pe l s :
  stringMapLoop op av pa pe false l s =
  Some (false, (s ++ map (fun _ => err "Cannot mix operators and fields" pa pe "spec_error")
                       (filter (fun kv => negb (hasPrefix (fst kv) "$")) l))%list).
Proof.
  revert s. induction l as [|[k v] l IH]; intros s; simpl.
  - now rewrite app_nil_r.
  - unfold bind, ret, emit. destruct (hasPrefix k "$"); simpl.
    + apply IH.
    + rewrite IH, <- app_assoc. reflexivity.
Qed.

Lemma numberMapLoop_after_failure op av ak l s :
  numberMapLoop op av ak false l s =
  Some (false, (s ++ map (fun kv => err "Cannot mix operators and fields" ak (fst kv) "spec_error")
                       (filter (fun kv => negb (hasPrefix (fst kv) "$")) l))%list).
Proof.
  revert s. induction l as [|[k v] l IH]; intros s; simpl.
  - now rewrite app_nil_r.
  - unfold bind, ret, emit. destruct (hasPrefix k "$"); simpl.
    + apply IH.
    + rewrite IH, <- app_assoc. reflexivity.
Qed.

Lemma stringMapLoop_app op av pa pe pre rest r s :
  stringMapLoop op av pa pe r (pre ++ rest) s =
  bind (stringMapLoop op av pa pe r pre) (fun r' => stringMapLoop op av pa pe r' rest) s.
Proof.
  revert r s. induction pre as [|[k v] pre IH]; intros r s; simpl.
  - reflexivity.
  - unfold bind, ret, emit. destruct (hasPrefix k "$").
    + destruct r.
      * match goal with |- context [op ?a1 ?a2 ?a3 ?a4 ?a5 s] =>
          destruct (op a1 a2 a3 a4 a5 s) as [[b s']|] end; [|reflexivity].
        rewrite IH. reflexivity.
      * rewrite IH. reflexivity.
    + rewrite IH. reflexivity.
Qed.

Lemma numberMapLoop_app op av ak pre rest r s :
  numberMapLoop op av ak r (pre ++ rest) s =
  bind (numberMapLoop op av ak r pre) (fun r' => numberMapLoop op av ak r' rest) s.
Proof.
  revert r s. induction pre as [|[k v] pre IH]; intros r s; simpl.
  - reflexivity.
  - unfold bind, ret, emit. destruct (hasPrefix k "$").
    + destruct r.
      * match goal with |- context [op ?a1 ?a2 ?a3 ?a4 ?a5 s] =>
          destruct (op a1 a2 a3 a4 a5 s) as [[b s']|] end; [|reflexivity].
        rewrite IH. reflexivity.
      * rewrite IH. reflexivity.
    + rewrite IH. reflexivity.
Qed.

(** In an operand mapping (of a string or of a number), take an operator
    key [k] whose earlier keys [pre] left [result] true (every earlier key
    an operator that passed). If the operator at [k] returns false, then
    [result && operate(..)] skips every later operator: they are not
    evaluated and report nothing; each later key that is not an operator
    still reports "Cannot mix operators and fields" (for a number with the
    inner key as its expected path). The mapping fails. *)
Theorem operator_mapping_stops_after_failure rm x t pre k v l pa pe inv s s0 s1 :
  hasPrefix k "$" = true ->
  (stringMapLoop (operate rm) (GString x) pa pe true pre s = Some (true, s0) ->
   operate rm (GString x) k v pa (pe ++ "." ++ k) s0 = Some (false, s1) ->
   compareStringMap (operate rm) (GString x) (GMap (pre ++ (k, v) :: l)) pa pe inv s =
   Some (false, (s1 ++ map (fun _ => err "Cannot mix operators and fields" pa pe "spec_error")
                        (filter (fun kv => negb (hasPrefix (fst kv) "$")) l))%list)) /\
  (numberMapLoop (operate rm) (GNumber t) pa true pre s = Some (true, s0) ->
   operate rm (GNumber t) k v "" "" s0 = Some (false, s1) ->
   compareNumberMap (operate rm) (GNumber t) (GMap (pre ++ (k, v) :: l)) pa pe inv s =
   Some (false, (s1 ++ map (fun kv => err "Cannot mix operators and fields" pa (fst kv) "spec_error")
                        (filter (fun kv => negb (hasPrefix (fst kv) "$")) l))%list)).
Proof.
  intros Hk. split; intros Hpre Hop.
  - unfold compareStringMap. rewrite stringMapLoop_app. unfold bind at 1. rewrite Hpre.
    cbn [stringMapLoop]. rewrite Hk. unfold bind. rewrite Hop.
    apply stringMapLoop_after_failure.
  - unfold compareNumberMap. rewrite numberMapLoop_app. unfold bind at 1. rewrite Hpre.
    cbn [numberMapLoop]. rewrite Hk. unfold bind. rewrite Hop.
    apply numberMapLoop_after_failure.
Qed.

Lemma operate_ne_unfold rm av ev pa pe :
  operate rm av "$ne" ev pa pe = executeNeOperator (operate rm) av ev pa pe.
Proof. destruct ev; reflexivity. Qed.

(** [$ne] with an integer operand on a number does not negate anything:
    it is the plain equality comparison of the [(json.Number, int)]
    comparator, so it succeeds (with no diagnostic) exactly when the number
    parses as that integer, and otherwise fails with "Values are not
    equal". *)
Theorem operate_ne_number_int rm t z pa pe s :
  operate rm (GNumber t) "$ne" (GInt z) pa pe s =
  compareNumberInt (GNumber t) (GInt z) pa pe false s /\
  (numberInt64 t = Some z -> operate rm (GNumber t) "$ne" (GInt z) pa pe s = Some (true, s)) /\
  (numberInt64 t <> Some z ->
   operate rm (GNumber t) "$ne" (GInt z) pa pe s =
   Some (false, (s ++ [err "Values are not equal" pa pe "response_error"])%list)).
Proof.
  assert (E : operate rm (GNumber t) "$ne" (GInt z) pa pe s =
              compareNumberInt (GNumber t) (GInt z) pa pe false s) by reflexivity.
  split; [exact E|]. rewrite E. unfold compareNumberInt, bind, ret, emit.
  split.
  - intros ->. now rewrite Z.eqb_refl.
  - intros Hne. destruct (numberInt64 t) as [a|]; [|reflexivity].
    destruct (Z.eqb_spec a z) as [->|]; [contradiction|reflexivity].
Qed.

(** [$ne] with an operand mapping holding one operator applies that
    operator unnegated: [$ne: {$regex: r}] on a string is [$regex: r]
    (with the expected path extended by the operator), and on a number it
    is [$regex: r] with empty paths. *)
Theorem operate_ne_nested_operator rm x t k v pa pe s :
  hasPrefix k "$" = true ->
  operate rm (GString x) "$ne" (GMap [(k, v)]) pa pe s =
  operate rm (GString x) k v pa (pe ++ "." ++ k) s /\
  operate rm (GNumber t) "$ne" (GMap [(k, v)]) pa pe s =
  operate rm (GNumber t) k v "" "" s.
Proof.
  intros Hk. rewrite !operate_ne_unfold. split.
  - unfold executeNeOperator, typeOf, bind, ret. simpl. rewrite Hk. unfold bind, ret.
    match goal with |- context [match ?m with _ => _ end] => destruct m as [[? ?]|] end;
    reflexivity.
  - unfold executeNeOperator, typeOf, bind, ret. simpl. rewrite Hk. unfold bind, ret.
    match goal with |- context [match ?m with _ => _ end] => destruct m as [[? ?]|] end;
    reflexivity.
Qed.

(** [$ne] with a type sigil (an operand starting with [$]) on a string
    fails with one "Unexpected value type" diagnostic when the sigil is
    [$string], and succeeds with no diagnostic for every other sigil. *)
Theorem operate_ne_string_sigil rm x t pa pe s :
  hasPrefix t "$" = true ->
  operate rm (GString x) "$ne" (GString t) pa pe s =
  if String.eqb t "$string"
  then Some (false, (s ++ [err "Unexpected value type" pa (pe ++ ":" ++ t) "response_error"])%list)
  else Some (true, s).
Proof.
  intros Ht. rewrite operate_ne_unfold.
  unfold executeNeOperator, typeOf, bind, ret. simpl.
  unfold compareStringString, bind, ret, emit. rewrite Ht. simpl.
  destruct (String.eqb t "$string"); reflexivity.
Qed.

(** A plain key whose pattern is a type sigil, on a string value: the
    sigil [$string] matches with no diagnostic; every other sigil fails
    with one "Unexpected value type" [response_error] whose expected path
    ends in [":" ++ sigil]. *)
Theorem compareValues_string_sigil rm x t ek ak pa pe s :
  hasPrefix ek "$" = false -> hasPrefix t "$" = true ->
  compareValues rm (GString x) (GString t) ek ak pa pe s =
  if String.eqb t "$string" then Some (Some true, s)
  else Some (Some false, (s ++ [err "Unexpected value type" (pa ++ "." ++ ak)
                                  ((pe ++ "." ++ ek) ++ ":" ++ t) "response_error"])%list).
Proof.
  intros Hek Ht. unfold compareValues. rewrite Hek.
  unfold typeOf, bind, ret, printf. simpl.
  unfold compareStringString, bind, ret, emit. rewrite Ht. simpl.
  destruct (String.eqb t "$string"); reflexivity.
Qed.

(** A plain key whose pattern is a string, on a number: the sigil
    [$number] matches; any other sigil gives "Unexpected value type"; and
    a string that is not a sigil never matches (even with the same digits),
    giving "Values are not equal". *)
Theorem compareValues_number_string rm n t ek ak pa pe s :
  hasPrefix ek "$" = false ->
  compareValues rm (GNumber n) (GString t) ek ak pa pe s =
  if hasPrefix t "$" then
    if String.eqb t "$number" then Some (Some true, s)
    else Some (Some false, (s ++ [err "Unexpected value type" (pa ++ "." ++ ak)
                                    ((pe ++ "." ++ ek) ++ ":" ++ t) "response_error"])%list)
  else Some (Some false, (s ++ [err "Values are not equal" (pa ++ "." ++ ak)
                                  (pe ++ "." ++ ek) "response_error"])%list).
Proof.
  intros Hek. unfold compareValues. rewrite Hek.
  unfold typeOf, bind, ret, printf. simpl.
  unfold compareNumberString, bind, ret, emit.
  destruct (hasPrefix t "$"); [|reflexivity].
  destruct (String.eqb t "$number"); reflexivity.
Qed.

(** [$is_not] on a non-null value compares the Go type name of the value
    ([json.Number], [string], [int], ...) with the sigil without its [$]:
    it fails with "Value type matched" (expected path: the actual path
    followed by [.$is_not]) only when they are equal, so [$is_not: $number]
    succeeds on every number. A string operand without [$], or a non-null
    operand that is not a string, is a "$is_not operator expects type
    name" [spec_error]; a null operand makes [reflect.TypeOf(nil).String()]
    panic. *)
Theorem operate_is_not rm av ta t pa pe s :
  typeName av = Some ta ->
  (hasPrefix t "$" = true ->
   operate rm av "$is_not" (GString t) pa pe s =
   if String.eqb ta (trimPrefix t "$")
   then Some (false, (s ++ [err "Value type matched" pa (pa ++ ".$is_not") "response_error"])%list)
   else Some (true, s)) /\
  (hasPrefix t "$" = false ->
   operate rm av "$is_not" (GString t) pa pe s =
   Some (false, (s ++ [err "$is_not operator expects type name" pa pe "spec_error"])%list)) /\
  (forall ev te, typeName ev = Some te -> (forall u, ev <> GString u) ->
   operate rm av "$is_not" ev pa pe s =
   Some (false, (s ++ [err "$is_not operator expects type name" pa pe "spec_error"])%list)) /\
  operate rm av "$is_not" GNil pa pe s = None.
Proof.
  intros Hta. split; [|split; [|split]].
  - intros Ht. simpl. unfold executeIsOperator, typeOf, bind, ret, emit.
    rewrite Ht, Hta. simpl. destruct (String.eqb ta (trimPrefix t "$")); reflexivity.
  - intros Ht. simpl. unfold typeOf, bind, ret, emit. rewrite Ht. reflexivity.
  - intros ev te Hte Hns. destruct ev; try discriminate;
      try (exfalso; eapply Hns; reflexivity); reflexivity.
  - reflexivity.
Qed.

(** An operator other than [$is_not], [$ne] and [$regex] (including [$is]
    and any misspelt operator) fails without reporting anything; as
    [compareObjects] ignores the results, a key of a string checked only by
    such an operator produces no diagnostic at all. *)
Theorem unknown_operator_silent rm op v x k pa pe s :
  op <> "$is_not" -> op <> "$ne" -> op <> "$regex" ->
  (forall av, operate rm av op v pa pe s = Some (false, s)) /\
  (hasPrefix op "$" = true -> hasPrefix k "$" = false -> hasSuffix k "?" = false ->
   compareObjects rm [(k, GString x)] [(k, GMap [(op, v)])] pa pe s = Some (tt, s)).
Proof.
  intros H1 H2 H3.
  assert (Hop : forall av pa pe s, operate rm av op v pa pe s = Some (false, s)).
  { intros av pa' pe' s'.
    assert (E : forall a b, a <> b -> String.eqb a b = false)
      by (intros a b; apply String.eqb_neq).
    destruct v; simpl; rewrite (E _ _ H1), (E _ _ H2), (E _ _ H3);
      destruct (String.eqb op "$is"); reflexivity. }
  split; [intros av; apply Hop|].
  intros Hp Hk Hsuf. unfold compareObjects, bind. simpl.
  unfold checkUnknownKey. simpl. rewrite String.eqb_refl. simpl. unfold ret.
  unfold checkExpectedKey, actualKeyOf. rewrite Hsuf. simpl. rewrite String.eqb_refl.
  unfold compareValues. rewrite Hk. unfold typeOf, bind, ret, printf. simpl.
  unfold compareStringMap. simpl. rewrite Hp. unfold bind, ret. rewrite Hop. reflexivity.
Qed.

Lemma substring_length n m t :
  String.length (substring n m t) = Nat.min m (String.length t - n).
Proof.
  revert n m. induction t as [|c t IH]; intros [|n] [|m]; simpl; try reflexivity.
  - rewrite IH. simpl. rewrite Nat.sub_0_r. reflexivity.
  - rewrite IH. reflexivity.
  - rewrite IH. reflexivity.
Qed.

Lemma substring_all t : substring 0 (String.length t) t = t.
Proof. induction t as [|c t IH]; simpl; [reflexivity | now rewrite IH]. Qed.

Lemma substring_empty n t : substring n 0 t = "".
Proof.
  revert n. induction t as [|c t IH]; intros [|n]; simpl; auto.
Qed.

Lemma string_app_nil_r t : t ++ "" = t.
Proof. induction t as [|c t IH]; simpl; [reflexivity | now rewrite IH]. Qed.

Lemma string_app_assoc' (a b c : string) : (a ++ b) ++ c = a ++ b ++ c.
Proof. induction a as [|x a IH]; simpl; [reflexivity | now rewrite IH]. Qed.

Lemma goIndex_some t sub q :
  goIndex t sub = Z.of_nat q -> index 0 sub t = Some q.
Proof.
  unfold goIndex. destruct (index 0 sub t) as [n|]; [intros H; f_equal; lia | lia].
Qed.

Lemma goIndex_bound t sub q :
  sub <> "" -> goIndex t sub = Z.of_nat q -> (Z.of_nat q + len sub <= len t)%Z.
Proof.
  intros Hs H. apply goIndex_some in H. apply index_correct1 in H.
  assert (L := f_equal String.length H). rewrite substring_length in L.
  pose proof (Nat.le_min_r (String.length sub) (String.length t - q)).
  assert (0 < String.length sub) by (destruct sub; [contradiction | simpl; lia]).
  unfold len. lia.
Qed.

Lemma slice_all t : slice t 0 (len t) = t.
Proof.
  unfold slice, len. rewrite Nat2Z.id. simpl. rewrite Nat.sub_0_r. apply substring_all.
Qed.

Lemma slice_empty t i : slice t i i = "".
Proof. unfold slice. rewrite Nat.sub_diag. apply substring_empty. Qed.

(** A request target without [{{] comes out of [refer] unchanged. *)
Lemma refer_no_placeholder jp fuel t ctx :
  goIndex t "{{" = (-1)%Z -> refer jp (S (S fuel)) t ctx = Referred t.
Proof.
  intros H. unfold refer. simpl.
  destruct (Z.ltb_spec 0 (len t)) as [Hl|Hl].
  - rewrite H. simpl. rewrite Z.ltb_irrefl, slice_all. reflexivity.
  - destruct t; [reflexivity|]. unfold len in Hl. simpl in Hl. lia.
Qed.

Theorem refer_without_placeholder jp fuel t ctx :
  goIndex t "{{" = (-1)%Z -> refer jp (S (S fuel)) t ctx = Referred t.
Proof. apply refer_no_placeholder. Qed.

(** [refer] replaces only the first placeholder: with the first [{{] at
    [p], the first [}}] at [q >= p + 2] and a query that yields a string,
    the result is the text before [p], the string, then the rest of the
    target copied verbatim, later placeholders included. *)
Theorem refer_first_placeholder_only jp fuel t ctx p q v :
  goIndex t "{{" = Z.of_nat p -> goIndex t "}}" = Z.of_nat q -> p + 2 <= q ->
  jp ctx ("$." ++ trimSpace (slice t (Z.of_nat p + 2) (Z.of_nat q))) = Some (GString v) ->
  refer jp (S (S (S fuel))) t ctx =
  Referred (slice t 0 (Z.of_nat p) ++ v ++ slice t (Z.of_nat q + 2) (len t)).
Proof.
  intros Hp Hq Hpq Hjp.
  pose proof (goIndex_bound t "}}" q ltac:(discriminate) Hq) as Hb. change (len "}}") with 2%Z in Hb.
  unfold refer. simpl.
  assert (E1 : (0 <? len t)%Z = true) by (apply Z.ltb_lt; lia).
  assert (E2 : (Z.of_nat p >=? 0)%Z = true) by (rewrite Z.geb_le; lia).
  assert (E3 : (Z.of_nat q >=? Z.of_nat p + 2)%Z = true) by (rewrite Z.geb_le; lia).
  rewrite E1, Hp, Hq, E2, E3. simpl in Hjp. rewrite Hjp.
  assert (E4 : (Z.of_nat p >=? Z.of_nat q + 2)%Z = false) by (rewrite Z.geb_leb; apply Z.leb_gt; lia).
  destruct (Z.ltb_spec (Z.of_nat q + 2) (len t)) as [Hl|Hl].
  - rewrite E4. simpl. rewrite Z.ltb_irrefl. f_equal.
    now rewrite string_app_assoc'.
  - assert (Eq : (Z.of_nat q + 2 = len t)%Z) by lia. rewrite Eq, slice_empty, string_app_nil_r.
    f_equal.
Qed.

(** When the target has [{{] but its first [}}] does not come at least
    two bytes after its first [{{] (no [}}] at all, or a [}}] before it),
    [refer] loops for ever. *)
Theorem refer_misplaced_close_loops jp t ctx :
  (goIndex t "{{" >= 0)%Z -> (goIndex t "}}" < goIndex t "{{" + 2)%Z ->
  forall fuel, refer jp fuel t ctx = ReferOutOfFuel.
Proof.
  intros Hopen Hclose fuel. unfold refer.
  pose proof (goIndex_open_nonempty t Hopen) as Hlen.
  generalize "" as buffer. induction fuel as [|fuel IH]; intros buffer; simpl;
    [reflexivity|].
  assert (E1 : (0 <? len t)%Z = true) by (apply Z.ltb_lt; exact Hlen).
  assert (E2 : (goIndex t "{{" >=? 0)%Z = true) by (rewrite Z.geb_le; lia).
  assert (E3 : (goIndex t "}}" >=? goIndex t "{{" + 2)%Z = false)
    by (rewrite Z.geb_leb; apply Z.leb_gt; lia).
  rewrite E1, E2, E3. apply IH.
Qed.

(** When the first placeholder's query yields a value that is not a
    string, the type assertion [value.(string)] panics: the run crashes
    without processing the remaining entries. *)
Theorem processEntries_crash_on_non_string jp request fuel e t rest ctx errs p w :
  goIndex t "{{" = Z.of_nat p ->
  (goIndex t "}}" >= Z.of_nat p + 2)%Z ->
  jp ctx ("$." ++ trimSpace (slice t (Z.of_nat p + 2) (goIndex t "}}"))) = Some w ->
  (forall u, w <> GString u) ->
  trimSpace t <> "" ->
  processEntries jp request (S fuel) ((e, t) :: rest) ctx errs = Crashed errs.
Proof.
  intros Hopen Hclose Hjp Hw Hblank. simpl.
  unfold processEntry. destruct (String.eqb_spec (trimSpace t) "") as [|_];
    [contradiction|].
  unfold refer. simpl.
  assert (Hlen : (0 < len t)%Z) by (apply goIndex_open_nonempty; lia).
  assert (E1 : (0 <? len t)%Z = true) by (apply Z.ltb_lt; exact Hlen).
  assert (E2 : (goIndex t "{{" >=? 0)%Z = true) by (rewrite Z.geb_le; lia).
  assert (E3 : (goIndex t "}}" >=? goIndex t "{{" + 2)%Z = true)
    by (rewrite Z.geb_le; lia).
  rewrite E1, E2, E3, Hopen. simpl in Hjp. rewrite Hjp.
  destruct w; try reflexivity. exfalso; eapply Hw; reflexivity.
Qed.

(** Entries whose target is blank each add one "Target expected"
    [spec_error] carrying the entry (the only diagnostic that does), in
    order, and the loop goes on. *)
Theorem processEntries_blank_targets jp request fuel entries ctx errs :
  Forall (fun et => trimSpace (snd et) = "") entries ->
  processEntries jp request fuel entries ctx errs =
  Continue (errs ++ map (fun et => mkError "Target expected" "" "$root.target"
                                     "spec_error" (fst et)) entries).
Proof.
  revert errs. induction entries as [|[e t] rest IH]; intros errs Hb; simpl.
  - now rewrite app_nil_r.
  - inversion Hb as [|? ? Ht Hrest]; subst. simpl in Ht.
    unfold processEntry. rewrite Ht. simpl. rewrite IH by exact Hrest.
    now rewrite <- app_assoc.
Qed.

Lemma splitSpace_no_space t :
  Forall (fun c => c <> " "%char) (list_ascii_of_string t) -> splitSpace t = [t].
Proof.
  induction t as [|c t IH]; intros H; [reflexivity|].
  simpl in H. inversion H as [|? ? Hc Ht]; subst. simpl.
  destruct (Ascii.eqb_spec c " "%char) as [|_]; [contradiction|].
  now rewrite IH.
Qed.

(** A non-blank target without placeholder and without a space has no
    [parts[1]]: the index is out of range and the run crashes. *)
Theorem processEntries_crash_without_space jp request fuel e t rest ctx errs :
  goIndex t "{{" = (-1)%Z -> trimSpace t <> "" ->
  Forall (fun c => c <> " "%char) (list_ascii_of_string t) ->
  processEntries jp request (S (S fuel)) ((e, t) :: rest) ctx errs = Crashed errs.
Proof.
  intros Hno Hblank Hsp. simpl. unfold processEntry.
  destruct (String.eqb_spec (trimSpace t) "") as [|_]; [contradiction|].
  rewrite refer_no_placeholder by exact Hno. rewrite splitSpace_no_space by exact Hsp.
  reflexivity.
Qed.



Lemma forRange_emits_missing rm expected pa pe s :
  forRange expected (checkExpectedKey rm [] pa pe) s =
  Some (tt, (s ++ map (missingKeyError pa pe)
                 (filter (fun k => negb (hasSuffix k "?")) (keys expected)))%list).
Proof.
  revert s. induction expected as [|[ek ev] rest IH]; intros s; simpl.
  - now rewrite app_nil_r.
  - unfold bind, checkExpectedKey. simpl. unfold emit, ret.
    destruct (hasSuffix ek "?"); simpl.
    + apply IH.
    + rewrite IH, <- app_assoc. reflexivity.
Qed.

Lemma compareObjects_empty_actual rm expected pa pe s :
  compareObjects rm [] expected pa pe s =
  Some (tt, (s ++ map (missingKeyError pa pe)
                 (filter (fun k => negb (hasSuffix k "?")) (keys expected)))%list).
Proof. unfold compareObjects, bind. simpl. unfold ret. apply forRange_emits_missing. Qed.

(** A response body that does not decode to a JSON object leaves
    [responseObject] a nil map: the comparison then reports one "Cannot
    find required key" [match_error] per required key of [out], and
    nothing else. *)
Theorem sendRequest_non_object_body rm get post marshal decode tc url body errs :
  decode body = None ->
  (get url = Some body ->
   sendRequest rm get post marshal decode tc "GET" url errs =
   Continue (errs ++ map (missingKeyError "$root" "$root.out")
                      (filter (fun k => negb (hasSuffix k "?")) (keys (Out tc))))) /\
  (post url (marshal (In_ tc)) = Some body ->
   sendRequest rm get post marshal decode tc "POST" url errs =
   Continue (errs ++ map (missingKeyError "$root" "$root.out")
                      (filter (fun k => negb (hasSuffix k "?")) (keys (Out tc))))).
Proof.
  intros Hd. split; intros H; unfold sendRequest; simpl; rewrite H;
    unfold compareResponse; rewrite Hd, compareObjects_empty_actual; reflexivity.
Qed.

Lemma listNode_dir lr sr name children acc :
  listNode lr sr (DirNode name children) acc =
  listLoop (lr ++ pathSeparator ++ name) (sr ++ pathSeparator ++ name) children acc.
Proof.
  simpl. revert acc. induction children as [|n rest IH]; intros acc; simpl; [reflexivity|].
  destruct (listNode _ _ n acc); [apply IH | reflexivity].
Qed.

Lemma listNode_acc : forall n lr sr acc,
  listNode lr sr n acc = option_map (app acc) (listNode lr sr n []).
Proof.
  induction n as [name | name children IH | name] using Node_deep_ind; intros lr sr acc.
  - simpl. destruct (negb _); simpl; [reflexivity | now rewrite app_nil_r].
  - rewrite !listNode_dir. revert acc lr sr.
    induction IH as [|n rest Hn Hrest IHl]; intros acc lr sr; simpl.
    + now rewrite app_nil_r.
    + rewrite (Hn _ _ acc). destruct (listNode _ _ n []) as [l1|]; simpl; [|reflexivity].
      rewrite (IHl (acc ++ l1)%list), (IHl l1).
      destruct (listLoop _ _ rest []); simpl; [now rewrite app_assoc | reflexivity].
  - reflexivity.
Qed.

Lemma listLoop_acc lr sr entries acc :
  listLoop lr sr entries acc = option_map (app acc) (listLoop lr sr entries []).
Proof.
  revert lr sr acc. induction entries as [|n rest IH]; intros lr sr acc; simpl.
  - now rewrite app_nil_r.
  - rewrite (listNode_acc n lr sr acc). destruct (listNode lr sr n []) as [l1|]; simpl;
      [|reflexivity].
    rewrite (IH _ _ (acc ++ l1)%list), (IH _ _ l1).
    destruct (listLoop lr sr rest []); simpl; [now rewrite app_assoc | reflexivity].
Qed.


Lemma listNode_In : forall n lr sr out,
  listNode lr sr n [] = Some out ->
  forall e, In e out <-> exists rel, FileIn n rel /\ Listed lr sr e rel.
Proof.
  induction n as [name | name children IH | name] using Node_deep_ind;
    intros lr sr out H e.
  - simpl in H. unfold Listed, pathSeparator in *. simpl in *.
    match type of H with
    | context [String.eqb ?a ?b] => destruct (String.eqb_spec a b) as [Hv|Hv]
    end; simpl in H; injection H as <-; simpl.
    + split; [intros []|]. intros (rel & Hf & Hn & _). inversion Hf; subst. contradiction.
    + split.
      * intros [<-|[]]. exists name. split; [constructor | auto].
      * intros (rel & Hf & _ & ->). inversion Hf; subst. now left.
  - rewrite listNode_dir in H.
    assert (Hl : forall ch, Forall (fun n => forall lr sr out, listNode lr sr n [] = Some out ->
                   forall e, In e out <-> exists rel, FileIn n rel /\ Listed lr sr e rel) ch ->
              forall lr sr out, listLoop lr sr ch [] = Some out ->
              forall e, In e out <-> exists n rel, In n ch /\ FileIn n rel /\ Listed lr sr e rel).
    { induction 1 as [|n rest Hn Hrest IHl]; intros lr' sr' out' H' e'; simpl in H'.
      - injection H' as <-. simpl. split; [intros []|]. intros (n & rel & [] & _).
      - destruct (listNode lr' sr' n []) as [l1|] eqn:E1; [|discriminate].
        rewrite listLoop_acc in H'.
        destruct (listLoop lr' sr' rest []) as [l2|] eqn:E2; [|discriminate].
        simpl in H'. injection H' as <-. rewrite in_app_iff.
        rewrite (Hn _ _ _ E1 e'), (IHl _ _ _ E2 e'). split.
        + intros [(rel & Hf & Hli)|(n' & rel & Hin & Hf & Hli)].
          * exists n, rel. split; [left; reflexivity | auto].
          * exists n', rel. split; [right; exact Hin | auto].
        + intros (n' & rel & [<-|Hin] & Hf & Hli).
          * left. exists rel. auto.
          * right. exists n', rel. auto. }
    rewrite (Hl children IH _ _ _ H e). unfold Listed. split.
    + intros (n & rel & Hin & Hf & Hv & ->). exists (name ++ pathSeparator ++ rel).
      split; [econstructor; eauto|]. rewrite !string_app_assoc' in *. auto.
    + intros (rel & Hf & Hv & ->). inversion Hf as [|? ? n rel' Hin Hf']; subst.
      exists n, rel'. rewrite !string_app_assoc' in *. auto.
  - discriminate.
Qed.

Lemma listLoop_In lr sr entries out :
  listLoop lr sr entries [] = Some out ->
  forall e, In e out <-> exists rel, FileAt entries rel /\ Listed lr sr e rel.
Proof.
  revert lr sr out. induction entries as [|n rest IH]; intros lr sr out H e; simpl in H.
  - injection H as <-. simpl. split; [intros []|]. intros (rel & Hf & _). inversion Hf.
  - destruct (listNode lr sr n []) as [l1|] eqn:E1; [|discriminate].
    rewrite listLoop_acc in H.
    destruct (listLoop lr sr rest []) as [l2|] eqn:E2; [|discriminate].
    simpl in H. injection H as <-. rewrite in_app_iff.
    rewrite (listNode_In n _ _ _ E1 e), (IH _ _ _ E2 e). unfold FileAt. split.
    + intros [(rel & Hf & Hli)|(rel & Hf & Hli)]; exists rel; split; auto.
    + intros (rel & Hf & Hli). inversion Hf; subst; [left | right]; exists rel; auto.
Qed.

(** From the working directory ([listFiles(cwd, ".", ..)]), [listFiles]
    lists exactly the regular files of the tree, at every depth, except the
    top-level [vars.yaml] (a [vars.yaml] in a subdirectory is listed);
    each entry's long and short names are the roots followed by the same
    relative path. *)
Theorem listFiles_lists_files lr entries out :
  listFiles lr "." (Some entries) [] = Some out ->
  forall e, In e out <->
    exists rel, FileAt entries rel /\ rel <> "vars.yaml" /\
      e = mkEntry (lr ++ "/" ++ rel) ("./" ++ rel).
Proof.
  intros H e. simpl in H. rewrite (listLoop_In lr "." entries out H e).
  unfold Listed, pathSeparator. simpl. split.
  - intros (rel & Hf & Hv & ->). exists rel. split; [auto|]. split; [|reflexivity].
    intros ->. apply Hv. reflexivity.
  - intros (rel & Hf & Hv & ->). exists rel. split; [auto|]. split; [|reflexivity].
    intros Heq. injection Heq as Heq. contradiction.
Qed.

Lemma listLoop_unreadable entries :
  UnreadableAt entries -> forall lr sr acc, listLoop lr sr entries acc = None.
Proof.
  induction 1 as [name rest | name children rest Hu IH | n rest Hu IH]; intros lr sr acc;
    cbn [listLoop].
  - reflexivity.
  - rewrite listNode_dir, IH. reflexivity.
  - destruct (listNode lr sr n acc); [apply IH | reflexivity].
Qed.

(** A directory that cannot be read, at any depth, makes [listFiles] call
    [log.Fatal]. *)
Theorem listFiles_unreadable_fatal lr sr entries acc :
  UnreadableAt entries -> listFiles lr sr (Some entries) acc = None /\
  listFiles lr sr None acc = None.
Proof.
  intros Hu. split; [apply listLoop_unreadable; exact Hu | reflexivity].
Qed.

Example listFiles_example :
  listFiles "/w" "." (Some [FileNode "vars.yaml"; FileNode "a.yaml";
                            DirNode "sub" [FileNode "vars.yaml"]]) []
  = Some [mkEntry "/w/a.yaml" "./a.yaml"; mkEntry "/w/sub/vars.yaml" "./sub/vars.yaml"].
Proof. reflexivity. Qed.

(** ** Witnesses of the further properties *)

Lemma compareObjects_tagged_witness :
  compareObjects literalRegex [("id", GString "1"); ("extra", GBool true)]
    [("id", GString "$number"); ("name", GString "$string")] "$root" "$root.out" []
  = Some (tt, [err "Unknown key extra" "$root.extra" "$root.out.$unknown" "match_error";
               err "Unexpected value type" "$root.id" "$root.out.id:$number" "response_error";
               err "Cannot find required key 'name'" "$root.<name>" "$root.out.name"
                   "match_error"]) /\
  exists new,
    [err "Unknown key extra" "$root.extra" "$root.out.$unknown" "match_error";
     err "Unexpected value type" "$root.id" "$root.out.id:$number" "response_error";
     err "Cannot find required key 'name'" "$root.<name>" "$root.out.name" "match_error"]
    = ([] ++ new)%list /\
    Forall (fun e => entry e = zeroEntry /\
                     (category e = "match_error" \/ category e = "response_error" \/
                      category e = "spec_error")) new.
Proof.
  match goal with |- ?A /\ _ => assert (H : A) by reflexivity end.
  split; [exact H|]. exact (compareObjects_tagged _ _ _ _ _ _ _ H).
Defined.

Lemma operator_mapping_stops_after_failure_witness :
  hasPrefix "$ne" "$" = true /\
  stringMapLoop (operate literalRegex) (GString "Everest") "$root.name" "$root.out.name" true
    [("$regex", GString "Ever")] [] = Some (true, []) /\
  operate literalRegex (GString "Everest") "$ne" (GString "Everest") "$root.name"
    ("$root.out.name" ++ "." ++ "$ne") []
  = Some (false, [err "Values are equal" "$root.name" "$root.out.name.$ne" "response_error"]) /\
  compareStringMap (operate literalRegex) (GString "Everest")
    (GMap [("$regex", GString "Ever"); ("$ne", GString "Everest");
           ("$regex", GString "Lhotse"); ("name", GInt 1)])
    "$root.name" "$root.out.name" false []
  = Some (false, [err "Values are equal" "$root.name" "$root.out.name.$ne" "response_error";
                  err "Cannot mix operators and fields" "$root.name" "$root.out.name"
                      "spec_error"]) /\
  numberMapLoop (operate literalRegex) (GNumber "7") "$root.id" true [("$ne", GInt 7)] []
  = Some (true, []) /\
  operate literalRegex (GNumber "7") "$regex" (GString "^7$") "" "" []
  = Some (false, [err "Unexpected value type" "" "" "response_error"]) /\
  compareNumberMap (operate literalRegex) (GNumber "7")
    (GMap [("$ne", GInt 7); ("$regex", GString "^7$"); ("$ne", GInt 8); ("name", GInt 1)])
    "$root.id" "$root.out.id" false []
  = Some (false, [err "Unexpected value type" "" "" "response_error";
                  err "Cannot mix operators and fields" "$root.id" "name" "spec_error"]).
Proof.
  destruct (operator_mapping_stops_after_failure literalRegex "Everest" "7"
              [("$regex", GString "Ever")] "$ne" (GString "Everest")
              [("$regex", GString "Lhotse"); ("name", GInt 1)]
              "$root.name" "$root.out.name" false [] []
              [err "Values are equal" "$root.name" "$root.out.name.$ne" "response_error"]
              eq_refl) as [H1 _].
  destruct (operator_mapping_stops_after_failure literalRegex "Everest" "7"
              [("$ne", GInt 7)] "$regex" (GString "^7$")
              [("$ne", GInt 8); ("name", GInt 1)]
              "$root.id" "$root.out.id" false [] []
              [err "Unexpected value type" "" "" "response_error"]
              eq_refl) as [_ H2].
  split; [reflexivity|]. split; [reflexivity|]. split; [reflexivity|].
  split; [exact (H1 eq_refl eq_refl)|].
  split; [reflexivity|]. split; [reflexivity|].
  exact (H2 eq_refl eq_refl).
Defined.

Lemma operate_ne_number_int_witness :
  numberInt64 "5" = Some 5%Z /\
  operate literalRegex (GNumber "5") "$ne" (GInt 5) "$root.id" "$root.out.id.$ne" []
  = Some (true, []) /\
  numberInt64 "6" <> Some 5%Z /\
  operate literalRegex (GNumber "6") "$ne" (GInt 5) "$root.id" "$root.out.id.$ne" []
  = Some (false, [err "Values are not equal" "$root.id" "$root.out.id.$ne" "response_error"]).
Proof.
  destruct (operate_ne_number_int literalRegex "5" 5 "$root.id" "$root.out.id.$ne" [])
    as (_ & H5 & _).
  destruct (operate_ne_number_int literalRegex "6" 5 "$root.id" "$root.out.id.$ne" [])
    as (_ & _ & H6).
  split; [reflexivity|]. split; [apply H5; reflexivity|].
  split; [discriminate|]. apply H6. discriminate.
Defined.

Lemma operate_ne_nested_operator_witness :
  hasPrefix "$regex" "$" = true /\
  operate literalRegex (GString "Everest") "$ne" (GMap [("$regex", GString "Ever")])
    "$root.name" "$root.out.name.$ne" []
  = operate literalRegex (GString "Everest") "$regex" (GString "Ever") "$root.name"
      ("$root.out.name.$ne" ++ "." ++ "$regex") [] /\
  operate literalRegex (GString "Everest") "$regex" (GString "Ever") "$root.name"
      ("$root.out.name.$ne" ++ "." ++ "$regex") [] = Some (true, []).
Proof.
  destruct (operate_ne_nested_operator literalRegex "Everest" "1" "$regex" (GString "Ever")
              "$root.name" "$root.out.name.$ne" [] eq_refl) as [H _].
  split; [reflexivity|]. split; [exact H | reflexivity].
Defined.

Lemma operate_ne_string_sigil_witness :
  hasPrefix "$number" "$" = true /\
  operate literalRegex (GString "Everest") "$ne" (GString "$number") "$root.name"
    "$root.out.name.$ne" [] = Some (true, []) /\
  hasPrefix "$string" "$" = true /\
  operate literalRegex (GString "Everest") "$ne" (GString "$string") "$root.name"
    "$root.out.name.$ne" []
  = Some (false, [err "Unexpected value type" "$root.name" "$root.out.name.$ne:$string"
                      "response_error"]).
Proof.
  split; [reflexivity|]. split.
  - exact (operate_ne_string_sigil literalRegex "Everest" "$number" "$root.name"
             "$root.out.name.$ne" [] eq_refl).
  - split; [reflexivity|].
    exact (operate_ne_string_sigil literalRegex "Everest" "$string" "$root.name"
             "$root.out.name.$ne" [] eq_refl).
Defined.

Lemma compareValues_string_sigil_witness :
  hasPrefix "name" "$" = false /\ hasPrefix "$number" "$" = true /\
  compareValues literalRegex (GString "Everest") (GString "$number") "name" "name"
    "$root" "$root.out" []
  = Some (Some false, [err "Unexpected value type" "$root.name" "$root.out.name:$number"
                           "response_error"]).
Proof.
  split; [reflexivity|]. split; [reflexivity|].
  exact (compareValues_string_sigil literalRegex "Everest" "$number" "name" "name"
           "$root" "$root.out" [] eq_refl eq_refl).
Defined.

Lemma compareValues_number_string_witness :
  hasPrefix "id" "$" = false /\
  compareValues literalRegex (GNumber "1") (GString "1") "id" "id" "$root" "$root.out" []
  = Some (Some false, [err "Values are not equal" "$root.id" "$root.out.id" "response_error"]).
Proof.
  split; [reflexivity|].
  exact (compareValues_number_string literalRegex "1" "1" "id" "id" "$root" "$root.out" []
           eq_refl).
Defined.

Lemma operate_is_not_witness :
  typeName (GNumber "42") = Some "json.Number" /\ hasPrefix "$number" "$" = true /\
  operate literalRegex (GNumber "42") "$is_not" (GString "$number") "$root.id"
    "$root.out.id.$is_not" [] = Some (true, []) /\
  typeName (GString "Everest") = Some "string" /\ hasPrefix "$string" "$" = true /\
  operate literalRegex (GString "Everest") "$is_not" (GString "$string") "$root.name"
    "$root.out.name.$is_not" []
  = Some (false, [err "Value type matched" "$root.name" "$root.name.$is_not" "response_error"]).
Proof.
  destruct (operate_is_not literalRegex (GNumber "42") "json.Number" "$number" "$root.id"
              "$root.out.id.$is_not" [] eq_refl) as [H1 _].
  destruct (operate_is_not literalRegex (GString "Everest") "string" "$string" "$root.name"
              "$root.out.name.$is_not" [] eq_refl) as [H2 _].
  split; [reflexivity|]. split; [reflexivity|]. split; [exact (H1 eq_refl)|].
  split; [reflexivity|]. split; [reflexivity|]. exact (H2 eq_refl).
Defined.

Lemma unknown_operator_silent_witness :
  "$gt" <> "$is_not" /\ "$gt" <> "$ne" /\ "$gt" <> "$regex" /\
  hasPrefix "$gt" "$" = true /\ hasPrefix "name" "$" = false /\ hasSuffix "name" "?" = false /\
  compareObjects literalRegex [("name", GString "Everest")]
    [("name", GMap [("$gt", GInt 5)])] "$root" "$root.out" [] = Some (tt, []).
Proof.
  destruct (unknown_operator_silent literalRegex "$gt" (GInt 5) "Everest" "name" "$root"
              "$root.out" [] ltac:(discriminate) ltac:(discriminate) ltac:(discriminate))
    as [_ H].
  split; [discriminate|]. split; [discriminate|]. split; [discriminate|].
  split; [reflexivity|]. split; [reflexivity|]. split; [reflexivity|].
  exact (H eq_refl eq_refl eq_refl).
Defined.

Lemma refer_without_placeholder_witness :
  goIndex "GET http://localhost/m" "{{" = (-1)%Z /\
  refer (fun _ _ => None) 2 "GET http://localhost/m" (GMap [])
  = Referred "GET http://localhost/m".
Proof.
  split; [reflexivity|].
  exact (refer_without_placeholder (fun _ _ => None) 0 "GET http://localhost/m" (GMap [])
           eq_refl).
Defined.

Lemma refer_first_placeholder_only_witness :
  goIndex "GET {{a}}/{{b}}" "{{" = Z.of_nat 4 /\
  goIndex "GET {{a}}/{{b}}" "}}" = Z.of_nat 7 /\ 4 + 2 <= 7 /\
  refer (fun _ q => if String.eqb q "$.a" then Some (GString "x") else None) 3
    "GET {{a}}/{{b}}" (GMap [])
  = Referred (slice "GET {{a}}/{{b}}" 0 (Z.of_nat 4) ++ "x" ++
              slice "GET {{a}}/{{b}}" (Z.of_nat 7 + 2) (len "GET {{a}}/{{b}}")) /\
  slice "GET {{a}}/{{b}}" 0 (Z.of_nat 4) ++ "x" ++
    slice "GET {{a}}/{{b}}" (Z.of_nat 7 + 2) (len "GET {{a}}/{{b}}") = "GET x/{{b}}".
Proof.
  split; [reflexivity|]. split; [reflexivity|]. split; [auto|]. split; [|reflexivity].
  apply (refer_first_placeholder_only
           (fun _ q => if String.eqb q "$.a" then Some (GString "x") else None) 0
           "GET {{a}}/{{b}}" (GMap []) 4 7 "x"); [reflexivity | reflexivity | auto | reflexivity].
Defined.

Lemma refer_misplaced_close_loops_witness :
  (goIndex "GET }}{{ a }}" "{{" >= 0)%Z /\
  (goIndex "GET }}{{ a }}" "}}" < goIndex "GET }}{{ a }}" "{{" + 2)%Z /\
  refer (fun _ _ => Some (GString "x")) 100 "GET }}{{ a }}" (GMap []) = ReferOutOfFuel.
Proof.
  split; [vm_compute; discriminate|]. split; [vm_compute; reflexivity|].
  apply refer_misplaced_close_loops; vm_compute; [discriminate | reflexivity].
Defined.

Lemma processEntries_crash_on_non_string_witness :
  goIndex "GET {{ port }}/m" "{{" = Z.of_nat 4 /\
  processEntries (fun _ _ => Some (GInt 8080)) (fun _ _ errs => Continue errs) 1
    [(mkEntry "/specs/one.yaml" "./one.yaml", "GET {{ port }}/m");
     (mkEntry "/specs/two.yaml" "./two.yaml", "")] (GMap []) [] = Crashed [].
Proof.
  split; [reflexivity|].
  apply (processEntries_crash_on_non_string (fun _ _ => Some (GInt 8080))
           (fun _ _ errs => Continue errs) 0 _ "GET {{ port }}/m" _ (GMap []) [] 4 (GInt 8080));
    [reflexivity | vm_compute; discriminate | reflexivity | discriminate | discriminate].
Defined.

Lemma processEntries_blank_targets_witness :
  processEntries (fun _ _ => None) (fun _ _ errs => Continue errs) 5
    [(mkEntry "/specs/a.yaml" "./a.yaml", "");
     (mkEntry "/specs/b.yaml" "./b.yaml", "  ");
     (mkEntry "/specs/c.yaml" "./c.yaml", String (ascii_of_nat 194) (String (ascii_of_nat 160) EmptyString))]
    (GMap []) []
  = Continue [mkError "Target expected" "" "$root.target" "spec_error"
                (mkEntry "/specs/a.yaml" "./a.yaml");
              mkError "Target expected" "" "$root.target" "spec_error"
                (mkEntry "/specs/b.yaml" "./b.yaml");
              mkError "Target expected" "" "$root.target" "spec_error"
                (mkEntry "/specs/c.yaml" "./c.yaml")].
Proof.
  exact (processEntries_blank_targets (fun _ _ => None) (fun _ _ errs => Continue errs) 5
           [(mkEntry "/specs/a.yaml" "./a.yaml", "");
            (mkEntry "/specs/b.yaml" "./b.yaml", "  ");
            (mkEntry "/specs/c.yaml" "./c.yaml", String (ascii_of_nat 194) (String (ascii_of_nat 160) EmptyString))]
           (GMap []) [] ltac:(repeat constructor)).
Defined.

Lemma processEntries_crash_without_space_witness :
  goIndex "localhost" "{{" = (-1)%Z /\
  processEntries (fun _ _ => None) (fun _ _ errs => Continue errs) 2
    [(mkEntry "/specs/a.yaml" "./a.yaml", "localhost")] (GMap []) [] = Crashed [].
Proof.
  split; [reflexivity|].
  apply processEntries_crash_without_space;
    [reflexivity | discriminate | repeat constructor; discriminate].
Defined.



Lemma sendRequest_non_object_body_witness :
  sendRequest literalRegex (fun _ => Some "<html>") (fun _ _ => None) (fun _ => "")
    (fun _ => None) (exampleCase "GET http://localhost/m") "GET" "http://localhost/m" []
  = Continue [missingKeyError "$root" "$root.out" "id"].
Proof.
  exact (proj1 (sendRequest_non_object_body literalRegex (fun _ => Some "<html>")
                  (fun _ _ => None) (fun _ => "") (fun _ => None)
                  (exampleCase "GET http://localhost/m") "http://localhost/m" "<html>" []
                  eq_refl) eq_refl).
Defined.

Lemma listFiles_lists_files_witness :
  listFiles "/w" "." (Some [FileNode "vars.yaml"; FileNode "a.yaml";
                            DirNode "sub" [FileNode "vars.yaml"]]) []
  = Some [mkEntry "/w/a.yaml" "./a.yaml"; mkEntry "/w/sub/vars.yaml" "./sub/vars.yaml"] /\
  (In (mkEntry "/w/vars.yaml" "./vars.yaml")
      [mkEntry "/w/a.yaml" "./a.yaml"; mkEntry "/w/sub/vars.yaml" "./sub/vars.yaml"] <->
   exists rel, FileAt [FileNode "vars.yaml"; FileNode "a.yaml";
                       DirNode "sub" [FileNode "vars.yaml"]] rel /\ rel <> "vars.yaml" /\
     mkEntry "/w/vars.yaml" "./vars.yaml" = mkEntry ("/w" ++ "/" ++ rel) ("./" ++ rel)).
Proof.
  assert (H : listFiles "/w" "." (Some [FileNode "vars.yaml"; FileNode "a.yaml";
                                        DirNode "sub" [FileNode "vars.yaml"]]) []
              = Some [mkEntry "/w/a.yaml" "./a.yaml";
                      mkEntry "/w/sub/vars.yaml" "./sub/vars.yaml"]) by reflexivity.
  split; [exact H|]. exact (listFiles_lists_files "/w" _ _ H _).
Defined.

Lemma listFiles_unreadable_fatal_witness :
  UnreadableAt [FileNode "a.yaml"; DirNode "sub" [UnreadableDir "locked"]] /\
  listFiles "/w" "." (Some [FileNode "a.yaml"; DirNode "sub" [UnreadableDir "locked"]]) []
  = None.
Proof.
  assert (Hu : UnreadableAt [FileNode "a.yaml"; DirNode "sub" [UnreadableDir "locked"]])
    by (apply UnreadableAt_later, UnreadableAt_below, UnreadableAt_here).
  split; [exact Hu|]. exact (proj1 (listFiles_unreadable_fatal "/w" "." _ [] Hu)).
Defined.
